(** * R-vine structure matrices (vinecopulib, [src/rvine_matrix.cpp])

    A shallow embedding of the structure-matrix algebra of
    [rvine_matrix.cpp] and the properties of its derived matrices.

    - C++ [int] values (labels, dimensions, loop counters) are integers [Z].
      The only arithmetic the source performs on them is on dimensions and
      loop counters, which stay between [-1] and [d]; labels are only copied
      and compared, so no wrap-around can occur and none is modelled.
    - An [Eigen] dense matrix is a record of its two dimensions and its
      coefficients, kept as the list of its rows.
    - Coefficient accesses outside the matrix, blocks that do not fit,
      assignments between shapes that differ, and [maxCoeff] of an empty
      block are faults of the source (Eigen assertions).  They are [None]
      here, and every function that may reach one returns an [option]. *)

From stdpp Require Import base option list list_numbers numbers.

Open Scope Z_scope.

(** ** Counted loops *)

(** [for (int i = lo; i < hi; ++i) s = body(i, s)], with faults propagated. *)
Fixpoint for_loop {S : Type} (n : nat) (i : Z)
    (body : Z → S → option S) (s : S) : option S :=
  match n with
  | O => Some s
  | Datatypes.S n' => s' ← body i s; for_loop n' (i + 1) body s'
  end.

Definition for_range {S : Type} (lo hi : Z)
    (body : Z → S → option S) (s : S) : option S :=
  for_loop (Z.to_nat (hi - lo)) lo body s.

(** ** Dense vectors and matrices *)

Module Eigen.

Record Mat (A : Type) : Type := mkMat {
  rows : Z;
  cols : Z;
  coeffs : list (list A)
}.
Global Arguments mkMat {A} _ _ _.
Global Arguments rows {A} _.
Global Arguments cols {A} _.
Global Arguments coeffs {A} _.

(** A dense vector is the list of its coefficients. *)
Abbreviation Vec A := (list A) (only parsing).

(** [v.size()] *)
Definition size {A} (v : Vec A) : Z := Z.of_nat (length v).

(** [v[i]] *)
Definition vcoeff {A} (v : Vec A) (i : Z) : option A :=
  if decide (0 ≤ i) then v !! Z.to_nat i else None.

(** [Matrix::Constant(r, c, v)] *)
Definition Constant {A} (r c : Z) (v : A) : Mat A :=
  mkMat r c (replicate (Z.to_nat r) (replicate (Z.to_nat c) v)).

(** [MatrixXi::Zero(r, c)] *)
Definition Zero (r c : Z) : Mat Z := Constant r c 0.

(** [m(i, j)] read *)
Definition coeff {A} (m : Mat A) (i j : Z) : option A :=
  if decide (0 ≤ i < rows m ∧ 0 ≤ j < cols m)
  then row ← coeffs m !! Z.to_nat i; row !! Z.to_nat j
  else None.

(** [m(i, j) = v] *)
Definition set_coeff {A} (m : Mat A) (i j : Z) (v : A) : option (Mat A) :=
  if decide (0 ≤ i < rows m ∧ 0 ≤ j < cols m)
  then Some (mkMat (rows m) (cols m)
               (alter (λ row, <[Z.to_nat j := v]> row) (Z.to_nat i) (coeffs m)))
  else None.

(** [m.block(r, c, h, w)] read: the [h]-by-[w] block whose top-left
    corner is [(r, c)]. *)
Definition block {A} (m : Mat A) (r c h w : Z) : option (Mat A) :=
  if decide (0 ≤ r ∧ 0 ≤ c ∧ 0 ≤ h ∧ 0 ≤ w ∧ r + h ≤ rows m ∧ c + w ≤ cols m)
  then Some (mkMat h w
               ((λ row : list A, take (Z.to_nat w) (drop (Z.to_nat c) row))
                  <$> take (Z.to_nat h) (drop (Z.to_nat r) (coeffs m))))
  else None.

(** [m.block(r, c, h, w) = b] *)
Definition assign_block {A} (m : Mat A) (r c h w : Z) (b : Mat A)
    : option (Mat A) :=
  if decide (0 ≤ r ∧ 0 ≤ c ∧ 0 ≤ h ∧ 0 ≤ w ∧ r + h ≤ rows m ∧ c + w ≤ cols m
             ∧ rows b = h ∧ cols b = w)
  then Some (mkMat (rows m) (cols m)
               (take (Z.to_nat r) (coeffs m)
                ++ zip_with (λ row brow,
                     take (Z.to_nat c) row ++ brow
                       ++ drop (Z.to_nat (c + w)) row)
                     (take (Z.to_nat h) (drop (Z.to_nat r) (coeffs m)))
                     (coeffs b)
                ++ drop (Z.to_nat (r + h)) (coeffs m)))
  else None.

(** [m.colwise().reverse()]: every column reversed, that is, the rows
    in the opposite order. *)
Definition colwise_reverse {A} (m : Mat A) : Mat A :=
  mkMat (rows m) (cols m) (reverse (coeffs m)).

(** [m.diagonal()]: the coefficients [(k, k)] for [k < min(rows, cols)]. *)
Definition diagonal {A} (m : Mat A) : option (Vec A) :=
  mapM (λ k, coeff m k k) (seqZ 0 (Z.min (rows m) (cols m))).

(** [v.reverse()] *)
Definition vreverse {A} (v : Vec A) : Vec A := reverse v.

(** [m.maxCoeff()]; Eigen refuses an empty matrix. *)
Definition maxCoeff (m : Mat Z) : option Z :=
  match concat (coeffs m) with
  | [] => None
  | x :: xs => Some (foldl Z.max x xs)
  end.

(** [m.array() != c] and [m.array() == c]: coefficient-wise tests. *)
Definition cwise {A B} (f : A → B) (m : Mat A) : Mat B :=
  mkMat (rows m) (cols m) ((λ row : list A, f <$> row) <$> coeffs m).

(** [a.array() && b.array()]; the two shapes must agree. *)
Definition cwise_and (a b : Mat bool) : option (Mat bool) :=
  if decide (rows a = rows b ∧ cols a = cols b)
  then Some (mkMat (rows a) (cols a)
               (zip_with (zip_with andb) (coeffs a) (coeffs b)))
  else None.

(** [m.rowwise().any()]: a column vector, one flag per row. *)
Definition rowwise_any (m : Mat bool) : Mat bool :=
  mkMat (rows m) 1 ((λ row : list bool, [existsb id row]) <$> coeffs m).

(** [m.any()] *)
Definition any (m : Mat bool) : bool := existsb id (concat (coeffs m)).

(** The records that are matrices: the coefficient list has [rows]
    rows of [cols] entries each. *)
Definition wf {A} (m : Mat A) : Prop :=
  0 ≤ rows m ∧ 0 ≤ cols m
  ∧ length (coeffs m) = Z.to_nat (rows m)
  ∧ Forall (λ row, length row = Z.to_nat (cols m)) (coeffs m).

End Eigen.

Import Eigen.

Abbreviation MatXi := (Mat Z) (only parsing).
Abbreviation MatXb := (Mat bool) (only parsing).
Abbreviation VecXi := (list Z) (only parsing).

(** ** [rvine_matrix.cpp] *)

Record RVineMatrix : Type := mkRVineMatrix { d_ : Z; matrix_ : MatXi }.

(** [RVineMatrix::RVineMatrix(const MatXi& matrix)] *)
Definition RVineMatrix_new (matrix : MatXi) : RVineMatrix :=
  {| d_ := rows matrix; matrix_ := matrix |}.

Definition get_matrix (self : RVineMatrix) : MatXi := matrix_ self.

Definition get_order (self : RVineMatrix) : option VecXi :=
  vreverse <$> diagonal (colwise_reverse (matrix_ self)).

Definition construct_d_vine_matrix (order : VecXi) : option MatXi :=
  let d := size order in
  let vine_matrix := Constant d d 0 in
  vine_matrix ←
    for_range 0 d (λ i vine_matrix,
      x ← vcoeff order (d - 1 - i);
      set_coeff vine_matrix (d - 1 - i) i x) vine_matrix;
  for_range 1 d (λ i vine_matrix,
    for_range 0 i (λ j vine_matrix,
      x ← vcoeff order (i - j - 1);
      set_coeff vine_matrix (d - 1 - i) j x) vine_matrix) vine_matrix.

(** [relabel_one]: the scan returns from inside the loop at the first
    match; [n] counts the iterations that remain. *)
Fixpoint relabel_one_from (n : nat) (i : Z) (x : Z)
    (old_labels new_labels : VecXi) : option Z :=
  match n with
  | O => Some 0
  | S n' =>
      o ← vcoeff old_labels i;
      if decide (x = o) then vcoeff new_labels i
      else relabel_one_from n' (i + 1) x old_labels new_labels
  end.

Definition relabel_one (x : Z) (old_labels new_labels : VecXi) : option Z :=
  relabel_one_from (Z.to_nat (size old_labels)) 0 x old_labels new_labels.

Definition relabel_elements (matrix : MatXi) (new_labels : VecXi)
    : option MatXi :=
  let d := rows matrix in
  old_labels ← diagonal (colwise_reverse matrix);
  let new_matrix := Zero d d in
  for_range 0 d (λ i new_matrix,
    for_range 0 (d - i) (λ j new_matrix,
      x ← coeff matrix i j;
      y ← relabel_one x old_labels new_labels;
      set_coeff new_matrix i j y) new_matrix) new_matrix.

Module stl_tools.

(** Modelled from the spec: [stl_tools::seq_int] is not among the sources.
    The comment at its call site ("create vector of new variable labels:
    d, ..., 1", obtained by reversing it) and the specification of
    [in_natural_order] ("builds a synthetic new-label sequence
    (d, d-1, ..., 1)") fix [seq_int(1, d)] as the vector [1, 2, ..., d]. *)
Definition seq_int (from n : Z) : list Z := seqZ from n.

(** Modelled from the spec: [stl_tools::reverse] is not among the sources
    either; by the same comment and sentence it turns [1, 2, ..., d] into
    [d, ..., 2, 1], that is, it reverses the vector. *)
Definition reverse (v : list Z) : list Z := list.reverse v.

End stl_tools.

Definition in_natural_order (self : RVineMatrix) : option MatXi :=
  let ivec := stl_tools.seq_int 1 (d_ self) in
  let ivec := stl_tools.reverse ivec in
  let new_labels : VecXi := ivec in
  relabel_elements (matrix_ self) new_labels.

Definition get_max_matrix (self : RVineMatrix) : option MatXi :=
  max_matrix ← in_natural_order self;
  for_range 0 (d_ self - 1) (λ i max_matrix,
    for_range 0 (d_ self - i - 1) (λ j max_matrix,
      b ← block max_matrix i j 2 1;
      v ← maxCoeff b;
      set_coeff max_matrix (i + 1) j v) max_matrix) max_matrix.

Definition get_needed_hfunc1 (self : RVineMatrix) : option MatXb :=
  let needed_hfunc1 := Constant (d_ self) (d_ self) false in
  no_matrix ← in_natural_order self;
  max_matrix ← get_max_matrix self;
  for_range 1 (d_ self - 1) (λ i needed_hfunc1,
    let j := d_ self - i in
    b ← block no_matrix 0 0 j i;
    let isnt_mat_j := cwise (λ x, bool_decide (x ≠ j)) b in
    b ← block max_matrix 0 0 j i;
    let is_max_j := cwise (λ x, bool_decide (x = j)) b in
    is_different ← cwise_and isnt_mat_j is_max_j;
    assign_block needed_hfunc1 0 i j 1 (rowwise_any is_different))
    needed_hfunc1.

Definition get_needed_hfunc2 (self : RVineMatrix) : option MatXb :=
  let needed_hfunc2 := Constant (d_ self) (d_ self) false in
  needed_hfunc2 ←
    assign_block needed_hfunc2 0 0 (d_ self - 1) 1
      (Constant (d_ self - 1) 1 true);
  no_matrix ← in_natural_order self;
  max_matrix ← get_max_matrix self;
  for_range 1 (d_ self - 1) (λ i needed_hfunc2,
    let j := d_ self - i in
    needed_hfunc2 ←
      assign_block needed_hfunc2 0 i (d_ self - i) 1
        (Constant (d_ self - i) 1 true);
    b ← block no_matrix (j - 1) 0 1 i;
    let is_mat_j := cwise (λ x, bool_decide (x = j)) b in
    b ← block max_matrix (j - 1) 0 1 i;
    let is_max_j := cwise (λ x, bool_decide (x = j)) b in
    both ← cwise_and is_mat_j is_max_j;
    set_coeff needed_hfunc2 (j - 1) i (any both))
    needed_hfunc2.

(** [repr m r c f]: [m] is an [r]-by-[c] matrix whose coefficient [(i, j)]
    is [f i j]. *)
Definition repr {A} (m : Mat A) (r c : Z) (f : Z → Z → A) : Prop :=
  wf m ∧ rows m = r ∧ cols m = c
  ∧ ∀ i j, 0 ≤ i < r → 0 ≤ j < c → coeff m i j = Some (f i j).

(** The coefficient function of a matrix, with [dflt] outside of it. *)
Definition coeff_or {A} (dflt : A) (m : Mat A) (i j : Z) : A :=
  default dflt (coeff m i j).

(** [exists_below c p]: some [k] with [0 <= k < c] satisfies [p]. *)
Definition exists_below (c : Z) (p : Z → bool) : bool :=
  existsb p (seqZ 0 c).

(** The scan of [relabel_one] as a recursion over the two label lists,
    read in step.  [relabel_one_scan] below shows that [relabel_one]
    computes it whenever [new_labels] is at least as long as [old_labels]. *)
Fixpoint relabel_scan (x : Z) (old_labels new_labels : list Z) : Z :=
  match old_labels, new_labels with
  | o :: old_labels', n :: new_labels' =>
      if decide (x = o) then n else relabel_scan x old_labels' new_labels'
  | _, _ => 0
  end.

(** The labels on the diagonal of a [d]-by-[d] matrix with coefficient
    function [f], from the bottom row upward: cells [(d-1-k, k)]. *)
Definition diagonal_labels (d : Z) (f : Z → Z → Z) : list Z :=
  (λ k, f (d - 1 - k) k) <$> seqZ 0 d.

(** The coefficients [relabel_elements] computes: the relabelled entry
    inside the triangle [i + j < d], zero outside. *)
Definition relabelled (d : Z) (f : Z → Z → Z) (new_labels : list Z)
    (i j : Z) : Z :=
  if decide (i + j < d)
  then relabel_scan (f i j) (diagonal_labels d f) new_labels
  else 0.

(** The new labels [in_natural_order] hands to [relabel_elements]. *)
Definition natural_labels (d : Z) : list Z :=
  stl_tools.reverse (stl_tools.seq_int 1 d).

(** A structure matrix of dimension [d]: a [d]-by-[d] matrix of labels.
    The source checks nothing else (its constructor carries a TODO for
    the sanity checks). *)
Definition structure_matrix (d : Z) (M : Mat Z) : Prop :=
  wf M ∧ rows M = d ∧ cols M = d.

(** The coefficients [construct_d_vine_matrix] computes: [order(i)] on
    the diagonal cell of row [i], [order(d-2-i-j)] in the cells to its
    left, zero to its right. *)
Definition d_vine_cells (order : list Z) (i j : Z) : Z :=
  let d := size order in
  if decide (i + j = d - 1) then default 0 (vcoeff order i)
  else if decide (i + j < d - 1) then default 0 (vcoeff order (d - 2 - i - j))
  else 0.

(** The largest of [g 0 j], ..., [g n j]. *)
Fixpoint running_max (g : Z → Z → Z) (n : nat) (j : Z) : Z :=
  match n with
  | O => g 0 j
  | S n' => Z.max (running_max g n' j) (g (Z.of_nat n) j)
  end.

(** The coefficients [get_max_matrix] computes from the natural-order
    coefficients [g]: running maxima inside the triangle, [g] outside. *)
Definition max_cells (d : Z) (g : Z → Z → Z) (i j : Z) : Z :=
  if decide (i + j < d) then running_max g (Z.to_nat i) j else g i j.

(** The flags [get_needed_hfunc1] computes from the natural-order
    coefficients [g] and the maximum-matrix coefficients [mx]. *)
Definition hfunc1_cells (d : Z) (g mx : Z → Z → Z) (r c : Z) : bool :=
  if decide (1 ≤ c ≤ d - 2 ∧ r < d - c)
  then exists_below c (λ k,
         bool_decide (g r k ≠ d - c) && bool_decide (mx r k = d - c))
  else false.

(** The flags [get_needed_hfunc2] computes. *)
Definition hfunc2_cells (d : Z) (g mx : Z → Z → Z) (r c : Z) : bool :=
  if decide (c = 0) then bool_decide (r < d - 1)
  else if decide (c ≤ d - 2) then
    if decide (r < d - c - 1) then true
    else if decide (r = d - c - 1)
         then exists_below c (λ k,
                bool_decide (g r k = d - c) && bool_decide (mx r k = d - c))
         else false
  else false.

(** A matrix given by the list of its rows. *)
Definition of_rows {A} (l : list (list A)) : Mat A :=
  mkMat (Z.of_nat (length l))
        (match l with [] => 0 | row :: _ => Z.of_nat (length row) end) l.

(** Two structure matrices used as concrete inputs: the D-vine matrix of
    the order [1, 2, 3, 4], and a 3-by-3 matrix whose diagonal reads
    [(3, 1, 2)] from the bottom row upward. *)
Definition d_vine_1234 : Mat Z :=
  of_rows [[3; 2; 1; 1]; [2; 1; 2; 0]; [1; 3; 0; 0]; [4; 0; 0; 0]].

Definition matrix_312 : Mat Z :=
  of_rows [[1; 3; 2]; [3; 1; 0]; [3; 0; 0]].

(** * Facts about loops *)

Section loops.
Context {S : Type}.
Implicit Types (body : Z → S → option S) (P : Z → S → Prop).

Lemma for_loop_inv P body n : ∀ lo s,
  P lo s →
  (∀ i s, lo ≤ i < lo + Z.of_nat n → P i s →
     ∃ s', body i s = Some s' ∧ P (i + 1) s') →
  ∃ s', for_loop n lo body s = Some s' ∧ P (lo + Z.of_nat n) s'.
Proof.
  induction n as [|n IH]; intros lo s H0 Hstep; simpl.
  - exists s. split; [done|]. by replace (lo + Z.of_nat 0) with lo by lia.
  - destruct (Hstep lo s) as (s1 & -> & H1); [lia|done|]. simpl.
    destruct (IH (lo + 1) s1) as (s2 & Hs2 & H2); [done| |].
    + intros i s' Hi. apply Hstep. lia.
    + exists s2. split; [done|].
      by replace (lo + Z.of_nat (Datatypes.S n)) with (lo + 1 + Z.of_nat n) by lia.
Qed.

Lemma for_range_inv P body lo hi s :
  lo ≤ hi →
  P lo s →
  (∀ i s, lo ≤ i < hi → P i s → ∃ s', body i s = Some s' ∧ P (i + 1) s') →
  ∃ s', for_range lo hi body s = Some s' ∧ P hi s'.
Proof.
  intros Hle H0 Hstep. unfold for_range.
  destruct (for_loop_inv P body (Z.to_nat (hi - lo)) lo s) as (s' & ? & ?);
    [done| |].
  - intros i s' Hi. apply Hstep. lia.
  - exists s'. split; [done|].
    by replace (lo + Z.of_nat (Z.to_nat (hi - lo))) with hi in * by lia.
Qed.

Lemma for_range_inv_max P body lo hi s :
  P lo s →
  (∀ i s, lo ≤ i < hi → P i s → ∃ s', body i s = Some s' ∧ P (i + 1) s') →
  ∃ s', for_range lo hi body s = Some s' ∧ P (Z.max lo hi) s'.
Proof.
  intros H0 Hstep. destruct (decide (lo ≤ hi)) as [Hle|Hgt].
  - rewrite Z.max_r by done. by apply for_range_inv.
  - exists s. rewrite Z.max_l by lia. split; [|done].
    unfold for_range. by replace (Z.to_nat (hi - lo)) with O by lia.
Qed.

Lemma for_range_empty body lo hi s :
  hi ≤ lo → for_range lo hi body s = Some s.
Proof.
  intros Hle. unfold for_range. by replace (Z.to_nat (hi - lo)) with O by lia.
Qed.
End loops.

(** * Facts about matrices *)

Section matrices.
Context {A : Type}.
Implicit Types (m b : Mat A) (f g : Z → Z → A).

Lemma coeff_Some_range m i j x :
  coeff m i j = Some x → 0 ≤ i < rows m ∧ 0 ≤ j < cols m.
Proof. unfold coeff. by case_decide. Qed.

Lemma coeff_lookup m i j row :
  0 ≤ i < rows m → 0 ≤ j < cols m →
  coeffs m !! Z.to_nat i = Some row →
  coeff m i j = row !! Z.to_nat j.
Proof.
  intros Hi Hj Hrow. unfold coeff.
  case_decide; [|lia]. by rewrite Hrow.
Qed.

Lemma wf_lookup_row m i :
  wf m → 0 ≤ i < rows m →
  ∃ row, coeffs m !! Z.to_nat i = Some row
         ∧ length row = Z.to_nat (cols m).
Proof.
  intros (Hr & Hc & Hlen & Hall) Hi.
  destruct (lookup_lt_is_Some_2 (coeffs m) (Z.to_nat i)) as [row Hrow];
    [lia|].
  exists row. split; [done|].
  by eapply (Forall_lookup_1 _ _ _ _ Hall).
Qed.

Lemma wf_coeff_is_Some m i j :
  wf m → 0 ≤ i < rows m → 0 ≤ j < cols m → is_Some (coeff m i j).
Proof.
  intros Hwf Hi Hj.
  destruct (wf_lookup_row m i Hwf Hi) as (row & Hrow & Hlen).
  rewrite (coeff_lookup m i j row) by done.
  apply lookup_lt_is_Some_2. lia.
Qed.

Lemma wf_repr dflt m : wf m → repr m (rows m) (cols m) (coeff_or dflt m).
Proof.
  intros Hwf. split; [done|]. split; [done|]. split; [done|].
  intros i j Hi Hj. unfold coeff_or.
  by destruct (wf_coeff_is_Some m i j Hwf Hi Hj) as [x ->].
Qed.

(** Building a representation from the list of rows. *)
Lemma repr_intro r c l f :
  0 ≤ r → 0 ≤ c →
  length l = Z.to_nat r →
  (∀ (i : nat) row, l !! i = Some row →
     length row = Z.to_nat c
     ∧ ∀ j : nat, (j < Z.to_nat c)%nat →
         row !! j = Some (f (Z.of_nat i) (Z.of_nat j))) →
  repr (mkMat r c l) r c f.
Proof.
  intros Hr Hc Hlen Hrows.
  split; [|split; [done|split; [done|]]]; [split_and!; simpl; try done|].
  - apply Forall_lookup_2. intros i row Hrow. apply (Hrows _ _ Hrow).
  - intros i j Hi Hj.
    destruct (lookup_lt_is_Some_2 l (Z.to_nat i)) as [row Hrow]; [lia|].
    rewrite (coeff_lookup _ i j row) by done.
    destruct (Hrows _ _ Hrow) as [_ Hcells].
    rewrite Hcells by lia. do 2 f_equal; lia.
Qed.

(** Reading a representation back at the level of rows. *)
Lemma repr_lookup m r c f (i : nat) row :
  repr m r c f → coeffs m !! i = Some row →
  length row = Z.to_nat c
  ∧ ∀ j : nat, (j < Z.to_nat c)%nat →
      row !! j = Some (f (Z.of_nat i) (Z.of_nat j)).
Proof.
  intros (Hwf & <- & <- & Hf) Hrow.
  pose proof Hwf as (Hr & Hc & Hlen & Hall).
  pose proof (lookup_lt_Some _ _ _ Hrow) as Hi.
  split; [by eapply (Forall_lookup_1 _ _ _ _ Hall)|].
  intros j Hj.
  rewrite <- (Hf (Z.of_nat i) (Z.of_nat j)) by lia.
  rewrite (coeff_lookup m _ _ row); rewrite ?Nat2Z.id; try done; lia.
Qed.

Lemma repr_length m r c f : repr m r c f → length (coeffs m) = Z.to_nat r.
Proof. intros (Hwf & <- & _). apply Hwf. Qed.

Lemma repr_nonneg m r c f : repr m r c f → 0 ≤ r ∧ 0 ≤ c.
Proof. intros (Hwf & <- & <- & _). split; apply Hwf. Qed.

Lemma repr_ext m r c f g :
  repr m r c f →
  (∀ i j, 0 ≤ i < r → 0 ≤ j < c → f i j = g i j) →
  repr m r c g.
Proof.
  intros (Hwf & Hr & Hc & Hf) Hfg. split; [done|]. split; [done|].
  split; [done|]. intros i j Hi Hj. rewrite Hf by done. f_equal. by apply Hfg.
Qed.

(** Two matrices of the same shape with the same coefficients are equal. *)
Lemma repr_inj m m' r c f : repr m r c f → repr m' r c f → m = m'.
Proof.
  intros Hm Hm'.
  pose proof (repr_length _ _ _ _ Hm) as Hlen.
  pose proof (repr_length _ _ _ _ Hm') as Hlen'.
  destruct m as [r1 c1 l], m' as [r2 c2 l'].
  pose proof Hm as (_ & Hr1 & Hc1 & _). pose proof Hm' as (_ & Hr2 & Hc2 & _).
  simpl in *. subst r1 c1 r2 c2. f_equal.
  apply list_eq_same_length with (Z.to_nat r); [done..|].
  intros i row row' Hi Hrow Hrow'.
  destruct (repr_lookup _ _ _ _ i row Hm Hrow) as [Hl Hcells].
  destruct (repr_lookup _ _ _ _ i row' Hm' Hrow') as [Hl' Hcells'].
  apply list_eq_same_length with (Z.to_nat c); [done..|].
  intros j x y Hj Hx Hy.
  rewrite Hcells in Hx by done. rewrite Hcells' in Hy by done. congruence.
Qed.

Lemma Constant_repr r c (v : A) :
  0 ≤ r → 0 ≤ c → repr (Constant r c v) r c (λ _ _, v).
Proof.
  intros Hr Hc. apply repr_intro; try done.
  - by rewrite length_replicate.
  - intros i row [-> Hi]%lookup_replicate. split.
    + by rewrite length_replicate.
    + intros j Hj. by apply lookup_replicate_2.
Qed.

Lemma set_coeff_repr m r c f i j v :
  repr m r c f → 0 ≤ i < r → 0 ≤ j < c →
  ∃ m', set_coeff m i j v = Some m'
    ∧ repr m' r c (λ i' j', if decide (i' = i ∧ j' = j) then v else f i' j').
Proof.
  intros Hm Hi Hj. pose proof Hm as (Hwf & Hr & Hc & Hf).
  unfold set_coeff. case_decide; [|lia]. eexists. split; [done|].
  rewrite Hr, Hc. apply repr_intro; try lia.
  - rewrite length_alter. by eapply repr_length.
  - intros i' row Hrow.
    destruct (decide (i' = Z.to_nat i)) as [->|Hne].
    + rewrite list_lookup_alter_eq in Hrow.
      destruct (coeffs m !! Z.to_nat i) as [row0|] eqn:Hrow0; [|done].
      simpl in Hrow. injection Hrow as <-.
      destruct (repr_lookup _ _ _ _ _ _ Hm Hrow0) as [Hl Hcells].
      split; [by rewrite length_insert|].
      intros j' Hj'. case_decide as Hd.
      * destruct Hd as [_ Hd]. replace j' with (Z.to_nat j) by lia.
        apply list_lookup_insert_eq. lia.
      * rewrite list_lookup_insert_ne by lia. rewrite Hcells by done.
        do 2 f_equal; lia.
    + rewrite list_lookup_alter_ne in Hrow by done.
      destruct (repr_lookup _ _ _ _ _ _ Hm Hrow) as [Hl Hcells].
      split; [done|]. intros j' Hj'. case_decide; [lia|]. by apply Hcells.
Qed.
Lemma block_repr m r c f r0 c0 h w :
  repr m r c f →
  0 ≤ r0 → 0 ≤ c0 → 0 ≤ h → 0 ≤ w → r0 + h ≤ r → c0 + w ≤ c →
  ∃ b, block m r0 c0 h w = Some b
    ∧ repr b h w (λ i j, f (r0 + i) (c0 + j)).
Proof.
  intros Hm Hr0 Hc0 Hh Hw Hrh Hcw. pose proof Hm as (Hwf & Hr & Hc & Hf).
  unfold block. case_decide; [|lia]. eexists. split; [done|].
  apply repr_intro; try done.
  - rewrite length_fmap, length_take, length_drop.
    rewrite (repr_length _ _ _ _ Hm). lia.
  - intros i row Hrow. rewrite list_lookup_fmap in Hrow.
    destruct (take _ _ !! i) as [row0|] eqn:Hrow0; [|done].
    simpl in Hrow. injection Hrow as <-.
    apply lookup_take_Some in Hrow0 as [Hrow0 Hi].
    rewrite lookup_drop in Hrow0.
    destruct (repr_lookup _ _ _ _ _ _ Hm Hrow0) as [Hl Hcells].
    split; [rewrite length_take, length_drop; lia|].
    intros j Hj. rewrite lookup_take_lt by done. rewrite lookup_drop.
    rewrite Hcells by lia. do 2 f_equal; lia.
Qed.

Lemma assign_block_repr m r c f b h w g r0 c0 :
  repr m r c f → repr b h w g →
  0 ≤ r0 → 0 ≤ c0 → r0 + h ≤ r → c0 + w ≤ c →
  ∃ m', assign_block m r0 c0 h w b = Some m'
    ∧ repr m' r c (λ i j,
        if decide (r0 ≤ i < r0 + h ∧ c0 ≤ j < c0 + w)
        then g (i - r0) (j - c0) else f i j).
Proof.
  intros Hm Hb Hr0 Hc0 Hrh Hcw.
  pose proof Hm as (Hwf & Hr & Hc & Hf).
  pose proof Hb as (Hwfb & Hrb & Hcb & Hg).
  destruct (repr_nonneg _ _ _ _ Hb) as [Hh Hw].
  pose proof (repr_length _ _ _ _ Hm) as Hlen.
  pose proof (repr_length _ _ _ _ Hb) as Hlenb.
  unfold assign_block. case_decide; [|lia]. eexists. split; [done|].
  rewrite Hr, Hc. apply repr_intro; try lia.
  - rewrite !length_app, length_zip_with, !length_take, !length_drop. lia.
  - intros i row Hrow.
    destruct (decide (i < Z.to_nat r0)%nat) as [Hlt|Hge].
    { rewrite lookup_app_l in Hrow by (rewrite length_take; lia).
      rewrite lookup_take_lt in Hrow by done.
      destruct (repr_lookup _ _ _ _ _ _ Hm Hrow) as [Hl Hcells].
      split; [done|]. intros j Hj. case_decide; [lia|]. by apply Hcells. }
    rewrite lookup_app_r in Hrow by (rewrite length_take; lia).
    rewrite length_take in Hrow.
    replace (length (coeffs m) `min` Z.to_nat r0)%nat
      with (Z.to_nat r0) in Hrow by lia.
    destruct (decide (i < Z.to_nat (r0 + h))%nat) as [Hlt|Hge'].
    + rewrite lookup_app_l in Hrow
        by (rewrite length_zip_with, !length_take, !length_drop; lia).
      apply lookup_zip_with_Some in Hrow
        as (row0 & brow & -> & Hrow0 & Hbrow).
      apply lookup_take_Some in Hrow0 as [Hrow0 _].
      rewrite lookup_drop in Hrow0.
      destruct (repr_lookup _ _ _ _ _ _ Hm Hrow0) as [Hl Hcells].
      destruct (repr_lookup _ _ _ _ _ _ Hb Hbrow) as [Hlb Hcellsb].
      split.
      { rewrite !length_app, length_take, length_drop. lia. }
      intros j Hj. case_decide as Hd.
      * rewrite lookup_app_r by (rewrite length_take; lia).
        rewrite length_take.
        rewrite lookup_app_l by lia.
        rewrite Hcellsb by lia. do 2 f_equal; lia.
      * destruct (decide (j < Z.to_nat c0)%nat).
        -- rewrite lookup_app_l by (rewrite length_take; lia).
           rewrite lookup_take_lt by done. rewrite Hcells by done.
           do 2 f_equal; lia.
        -- rewrite lookup_app_r by (rewrite length_take; lia).
           rewrite length_take.
           rewrite lookup_app_r by lia.
           rewrite lookup_drop. rewrite Hcells by lia.
           do 2 f_equal; lia.
    + rewrite lookup_app_r in Hrow
        by (rewrite length_zip_with, !length_take, !length_drop; lia).
      rewrite length_zip_with, !length_take, !length_drop in Hrow.
      rewrite lookup_drop in Hrow.
      destruct (repr_lookup _ _ _ _ _ _ Hm Hrow) as [Hl Hcells].
      split; [done|]. intros j Hj. case_decide; [lia|].
      rewrite Hcells by done. do 2 f_equal; lia.
Qed.

Lemma colwise_reverse_repr m r c f :
  repr m r c f →
  repr (colwise_reverse m) r c (λ i j, f (r - 1 - i) j).
Proof.
  intros Hm. pose proof Hm as (Hwf & Hr & Hc & Hf).
  destruct (repr_nonneg _ _ _ _ Hm) as [Hr0 Hc0].
  pose proof (repr_length _ _ _ _ Hm) as Hlen.
  unfold colwise_reverse. rewrite Hr, Hc. apply repr_intro; try done.
  - by rewrite length_reverse.
  - intros i row Hrow.
    pose proof (lookup_lt_Some _ _ _ Hrow) as Hi.
    rewrite length_reverse in Hi.
    rewrite reverse_lookup in Hrow by done.
    destruct (repr_lookup _ _ _ _ _ _ Hm Hrow) as [Hl Hcells].
    split; [done|]. intros j Hj. rewrite Hcells by done.
    do 2 f_equal; lia.
Qed.

Lemma diagonal_repr m d f :
  repr m d d f → diagonal m = Some ((λ k, f k k) <$> seqZ 0 d).
Proof.
  intros Hm. pose proof Hm as (Hwf & Hr & Hc & Hf).
  unfold diagonal. rewrite Hr, Hc, Z.min_id.
  apply mapM_Some. apply Forall2_fmap_r, Forall_Forall2_diag.
  apply list.Forall_forall. intros k Hk%elem_of_seqZ. apply Hf; lia.
Qed.
End matrices.

Section matrix_operations.
Implicit Types (m : Mat Z) (a b : Mat bool).

Lemma exists_below_true c p :
  exists_below c p = true ↔ ∃ k, 0 ≤ k < c ∧ p k = true.
Proof.
  unfold exists_below. rewrite existsb_exists. split.
  - intros (k & Hk%list_elem_of_In%elem_of_seqZ & Hp). exists k. split; [lia|done].
  - intros (k & Hk & Hp). exists k. split; [|done].
    apply list_elem_of_In, elem_of_seqZ. lia.
Qed.

Lemma exists_below_ext c p q :
  (∀ k, 0 ≤ k < c → p k = q k) → exists_below c p = exists_below c q.
Proof.
  intros Hpq. apply eq_true_iff_eq. rewrite !exists_below_true.
  split; intros (k & Hk & Hp); exists k; (split; [done|]).
  - by rewrite <- Hpq.
  - by rewrite Hpq.
Qed.

(** A row of a represented matrix, as a list. *)
Lemma repr_row {A} (m : Mat A) r c f (i : nat) row :
  repr m r c f → coeffs m !! i = Some row →
  row = f (Z.of_nat i) <$> seqZ 0 c.
Proof.
  intros Hm Hrow. destruct (repr_nonneg _ _ _ _ Hm) as [_ Hc].
  destruct (repr_lookup _ _ _ _ _ _ Hm Hrow) as [Hl Hcells].
  apply list_eq_same_length with (Z.to_nat c);
    [by rewrite length_fmap, length_seqZ|done|].
  intros j x y Hj Hx Hy. rewrite Hcells in Hx by done.
  rewrite list_lookup_fmap, lookup_seqZ_lt in Hy by lia. simpl in Hy.
  rewrite Z.add_0_l in Hy. congruence.
Qed.

Lemma maxCoeff_repr_2_1 m f :
  repr m 2 1 f → maxCoeff m = Some (Z.max (f 0 0) (f 1 0)).
Proof.
  intros Hm. pose proof (repr_length _ _ _ _ Hm) as Hlen.
  destruct m as [r c l]. simpl in Hlen.
  destruct l as [|r0 [|r1 [|??]]]; try done.
  pose proof (repr_row _ _ _ _ 0 r0 Hm eq_refl) as ->.
  pose proof (repr_row _ _ _ _ 1 r1 Hm eq_refl) as ->.
  reflexivity.
Qed.

Lemma cwise_repr {A B} (h : A → B) (m : Mat A) r c f :
  repr m r c f → repr (cwise h m) r c (λ i j, h (f i j)).
Proof.
  intros Hm. pose proof Hm as (Hwf & Hr & Hc & Hf).
  destruct (repr_nonneg _ _ _ _ Hm) as [Hr0 Hc0].
  unfold cwise. rewrite Hr, Hc. apply repr_intro; try done.
  - rewrite length_fmap. by eapply repr_length.
  - intros i row Hrow. rewrite list_lookup_fmap in Hrow.
    destruct (coeffs m !! i) as [row0|] eqn:Hrow0; [|done].
    simpl in Hrow. injection Hrow as <-.
    destruct (repr_lookup _ _ _ _ _ _ Hm Hrow0) as [Hl Hcells].
    split; [by rewrite length_fmap|].
    intros j Hj. by rewrite list_lookup_fmap, Hcells.
Qed.

Lemma cwise_and_repr a b r c f g :
  repr a r c f → repr b r c g →
  ∃ ab, cwise_and a b = Some ab ∧ repr ab r c (λ i j, f i j && g i j).
Proof.
  intros Ha Hb.
  pose proof Ha as (Hwfa & Hra & Hca & Hf).
  pose proof Hb as (Hwfb & Hrb & Hcb & Hg).
  destruct (repr_nonneg _ _ _ _ Ha) as [Hr0 Hc0].
  pose proof (repr_length _ _ _ _ Ha) as Hlena.
  pose proof (repr_length _ _ _ _ Hb) as Hlenb.
  unfold cwise_and. case_decide; [|lia]. eexists. split; [done|].
  rewrite Hra, Hca. apply repr_intro; try done.
  - rewrite length_zip_with. lia.
  - intros i row Hrow.
    apply lookup_zip_with_Some in Hrow as (ra & rb & -> & Hrowa & Hrowb).
    destruct (repr_lookup _ _ _ _ _ _ Ha Hrowa) as [Hla Hcellsa].
    destruct (repr_lookup _ _ _ _ _ _ Hb Hrowb) as [Hlb Hcellsb].
    split; [rewrite length_zip_with; lia|].
    intros j Hj. rewrite lookup_zip_with, Hcellsa, Hcellsb by done.
    reflexivity.
Qed.

Lemma existsb_id_fmap {A} (p : A → bool) (l : list A) :
  existsb id (p <$> l) = existsb p l.
Proof. induction l as [|x l IH]; simpl; [done|]. f_equal. exact IH. Qed.

Lemma rowwise_any_repr a r c f :
  repr a r c f →
  repr (rowwise_any a) r 1 (λ i _, exists_below c (f i)).
Proof.
  intros Ha. pose proof Ha as (Hwf & Hr & Hc & Hf).
  destruct (repr_nonneg _ _ _ _ Ha) as [Hr0 Hc0].
  unfold rowwise_any. rewrite Hr. apply repr_intro; try done.
  - rewrite length_fmap. by eapply repr_length.
  - intros i row Hrow. rewrite list_lookup_fmap in Hrow.
    destruct (coeffs a !! i) as [row0|] eqn:Hrow0; [|done].
    simpl in Hrow. injection Hrow as <-.
    rewrite (repr_row _ _ _ _ _ _ Ha Hrow0), existsb_id_fmap.
    split; [done|]. intros j Hj. by replace j with O by lia.
Qed.

Lemma any_repr_row a c f :
  repr a 1 c f → any a = exists_below c (f 0).
Proof.
  intros Ha. pose proof (repr_length _ _ _ _ Ha) as Hlen.
  destruct a as [r' c' l]. simpl in Hlen.
  destruct l as [|r0 [|??]]; try done.
  pose proof (repr_row _ _ _ _ 0 r0 Ha eq_refl) as ->.
  unfold any. simpl. by rewrite app_nil_r, existsb_id_fmap.
Qed.
End matrix_operations.

(** * [relabel_one] *)

Section relabel.
Implicit Types (x y : Z) (old new : list Z).

Lemma vcoeff_lookup {A} (v : Vec A) (k : nat) :
  vcoeff v (Z.of_nat k) = v !! k.
Proof. unfold vcoeff. case_decide; [|lia]. by rewrite Nat2Z.id. Qed.

Lemma vcoeff_Some_range {A} (v : Vec A) i a :
  vcoeff v i = Some a → 0 ≤ i < size v.
Proof.
  unfold vcoeff, size. case_decide; [|done].
  intros Hl%lookup_lt_Some. lia.
Qed.

Lemma relabel_one_from_scan x old new n : ∀ i : nat,
  (i + n)%nat = length old → (length old ≤ length new)%nat →
  relabel_one_from n (Z.of_nat i) x old new
  = Some (relabel_scan x (drop i old) (drop i new)).
Proof.
  induction n as [|n IH]; intros i Hn Hlen; simpl.
  - by rewrite drop_ge by lia.
  - rewrite !vcoeff_lookup.
    destruct (lookup_lt_is_Some_2 old i) as [o Ho]; [lia|].
    destruct (lookup_lt_is_Some_2 new i) as [y Hy]; [lia|].
    rewrite Ho. simpl.
    rewrite (drop_S old o i Ho), (drop_S new y i Hy). simpl.
    case_decide; [done|].
    replace (Z.of_nat i + 1) with (Z.of_nat (S i)) by lia.
    apply IH; lia.
Qed.

Lemma relabel_one_scan x old new :
  size old ≤ size new →
  relabel_one x old new = Some (relabel_scan x old new).
Proof.
  unfold relabel_one, size. intros Hlen. rewrite Nat2Z.id.
  apply (relabel_one_from_scan x old new (length old) O); lia.
Qed.

Lemma relabel_scan_notin x old new : x ∉ old → relabel_scan x old new = 0.
Proof.
  revert new. induction old as [|o old IH]; intros [|n new] Hx; simpl;
    try done.
  apply not_elem_of_cons in Hx as [Hne Hx].
  case_decide; [done|]. by apply IH.
Qed.

Lemma relabel_scan_first x old new (k : nat) y :
  old !! k = Some x →
  (∀ k' : nat, (k' < k)%nat → old !! k' ≠ Some x) →
  new !! k = Some y →
  relabel_scan x old new = y.
Proof.
  revert new k. induction old as [|o old IH]; intros [|n new] k Hk Hfirst Hy;
    try done.
  simpl. destruct k as [|k]; simpl in *.
  - injection Hk as ->. injection Hy as ->. by case_decide.
  - case_decide as Hd.
    + subst o. by destruct (Hfirst O); [lia|].
    + apply (IH new k); try done.
      intros k' Hk'. apply (Hfirst (S k')). lia.
Qed.

Lemma first_occurrence x old :
  x ∈ old →
  ∃ k : nat, old !! k = Some x ∧ ∀ k' : nat, (k' < k)%nat → old !! k' ≠ Some x.
Proof.
  induction old as [|o old IH]; intros Hx; [by apply elem_of_nil in Hx|].
  destruct (decide (x = o)) as [->|Hne].
  - exists O. split; [done|]. intros k' Hk'. lia.
  - apply elem_of_cons in Hx as [?|Hx]; [done|].
    destruct (IH Hx) as (k & Hk & Hfirst). exists (S k). split; [done|].
    intros [|k'] Hk'; simpl; [congruence|]. apply Hfirst. lia.
Qed.

Lemma relabel_scan_in x old new :
  (length old ≤ length new)%nat → x ∈ old → relabel_scan x old new ∈ new.
Proof.
  intros Hlen (k & Hk & Hfirst)%first_occurrence.
  destruct (lookup_lt_is_Some_2 new k) as [y Hy].
  { apply lookup_lt_Some in Hk. lia. }
  rewrite (relabel_scan_first x old new k y) by done.
  by eapply list_elem_of_lookup_2.
Qed.

(** Relabelling the relabelled diagonal with the same new labels leaves
    every relabelled value as it is. *)
Lemma relabel_scan_idem x old new :
  (length old ≤ length new)%nat → NoDup new → 0 ∉ new →
  relabel_scan (relabel_scan x old new)
    ((λ o, relabel_scan o old new) <$> old) new
  = relabel_scan x old new.
Proof.
  intros Hlen Hnd H0. destruct (decide (x ∈ old)) as [Hin|Hnotin].
  - destruct (first_occurrence x old Hin) as (k & Hk & Hfirst).
    destruct (lookup_lt_is_Some_2 new k) as [y Hy].
    { apply lookup_lt_Some in Hk. lia. }
    rewrite (relabel_scan_first x old new k y) by done.
    apply (relabel_scan_first _ _ _ k); [| |done].
    + rewrite list_lookup_fmap, Hk. simpl.
      by rewrite (relabel_scan_first x old new k y).
    + intros k' Hk'. rewrite list_lookup_fmap.
      destruct (old !! k') as [o|] eqn:Ho; [|done]. simpl.
      intros [= Heq].
      assert (o ∈ old) as Hoin by by eapply list_elem_of_lookup_2.
      destruct (first_occurrence o old Hoin) as (k0 & Hk0 & Hfirst0).
      assert (k0 ≤ k')%nat as Hle.
      { destruct (decide (k0 ≤ k')%nat); [done|].
        destruct (Hfirst0 k'); [lia|done]. }
      destruct (lookup_lt_is_Some_2 new k0) as [y0 Hy0].
      { apply lookup_lt_Some in Hk0. lia. }
      rewrite (relabel_scan_first o old new k0 y0) in Heq by done.
      subst y0. pose proof (NoDup_lookup _ _ _ _ Hnd Hy0 Hy). lia.
  - rewrite (relabel_scan_notin x old new Hnotin).
    apply relabel_scan_notin.
    intros (o & Ho & Hoin)%list_elem_of_fmap.
    apply H0. rewrite Ho. by apply relabel_scan_in.
Qed.
End relabel.

(** * [relabel_elements] and [in_natural_order] *)

Section relabel_elements.
Implicit Types (matrix : Mat Z) (f : Z → Z → Z) (new_labels : list Z).

Lemma diagonal_labels_length d f : 0 ≤ d → size (diagonal_labels d f) = d.
Proof.
  intros Hd. unfold size, diagonal_labels.
  rewrite length_fmap, length_seqZ. lia.
Qed.

Lemma diagonal_labels_lookup d f (k : nat) :
  Z.of_nat k < d →
  diagonal_labels d f !! k = Some (f (d - 1 - Z.of_nat k) (Z.of_nat k)).
Proof.
  intros Hk. unfold diagonal_labels.
  by rewrite list_lookup_fmap, lookup_seqZ_lt by lia.
Qed.

Lemma old_labels_repr matrix d f :
  repr matrix d d f →
  diagonal (colwise_reverse matrix) = Some (diagonal_labels d f).
Proof.
  intros Hm.
  by rewrite (diagonal_repr _ _ _ (colwise_reverse_repr _ _ _ _ Hm)).
Qed.

Lemma relabel_elements_repr matrix d f new_labels :
  repr matrix d d f → d ≤ size new_labels →
  ∃ new_matrix, relabel_elements matrix new_labels = Some new_matrix
    ∧ repr new_matrix d d (relabelled d f new_labels).
Proof.
  intros Hm Hnew. pose proof Hm as (Hwf & Hr & Hc & Hf).
  destruct (repr_nonneg _ _ _ _ Hm) as [Hd _].
  unfold relabel_elements. rewrite (old_labels_repr _ _ _ Hm), Hr. simpl.
  set (old_labels := diagonal_labels d f).
  set (R := λ x, relabel_scan x old_labels new_labels).
  destruct (for_range_inv
    (λ i nm, repr nm d d (λ i' j',
       if decide (i' < i ∧ i' + j' < d) then R (f i' j') else 0))
    (λ i nm, for_range 0 (d - i) (λ j nm,
       x ← coeff matrix i j;
       y ← relabel_one x old_labels new_labels;
       set_coeff nm i j y) nm)
    0 d (Constant d d 0)) as (nm & Hrun & Hnm); [done| | |].
  - eapply repr_ext; [by apply Constant_repr|].
    intros i j Hi Hj. simpl. case_decide; [lia|done].
  - intros i nm0 Hi Hnm0.
    destruct (for_range_inv
      (λ j nm, repr nm d d (λ i' j',
         if decide ((i' < i ∧ i' + j' < d) ∨ (i' = i ∧ j' < j))
         then R (f i' j') else 0))
      (λ j nm,
         x ← coeff matrix i j;
         y ← relabel_one x old_labels new_labels;
         set_coeff nm i j y)
      0 (d - i) nm0) as (nm1 & Hrun1 & Hnm1); [lia| | |].
    + eapply repr_ext; [done|]. intros i' j' Hi' Hj'. simpl.
      repeat case_decide; (done || lia).
    + intros j nm2 Hj Hnm2. rewrite Hf by lia. simpl.
      rewrite relabel_one_scan
        by (unfold old_labels; rewrite diagonal_labels_length; lia).
      simpl.
      destruct (set_coeff_repr nm2 d d _ i j (R (f i j)) Hnm2)
        as (nm3 & Hset & Hnm3); [lia..|].
      exists nm3. split; [exact Hset|]. eapply repr_ext; [done|].
      intros i' j' Hi' Hj'. simpl.
      repeat case_decide; (done || lia || (f_equal; f_equal; lia)).
    + exists nm1. split; [done|]. eapply repr_ext; [done|].
      intros i' j' Hi' Hj'. simpl.
      repeat case_decide; (done || lia).
  - exists nm. split; [done|]. eapply repr_ext; [done|].
    intros i' j' Hi' Hj'. unfold relabelled. simpl.
    repeat case_decide; (done || lia).
Qed.
End relabel_elements.

Section natural_order.
Implicit Types (M N : Mat Z) (f : Z → Z → Z).

Lemma structure_matrix_repr d M :
  structure_matrix d M → repr M d d (coeff_or 0 M).
Proof. intros (Hwf & <- & Hc). rewrite <- Hc at 2. by apply wf_repr. Qed.

Lemma repr_structure_matrix d M f : repr M d d f → structure_matrix d M.
Proof. by intros (? & ? & ? & _). Qed.

Lemma repr_coeff_or d M f i j :
  repr M d d f → 0 ≤ i < d → 0 ≤ j < d → coeff_or 0 M i j = f i j.
Proof. intros (_ & _ & _ & Hf) Hi Hj. unfold coeff_or. by rewrite Hf. Qed.

Lemma natural_labels_size d : 0 ≤ d → size (natural_labels d) = d.
Proof.
  intros Hd. unfold size, natural_labels, stl_tools.reverse, stl_tools.seq_int.
  rewrite length_reverse, length_seqZ. lia.
Qed.

Lemma natural_labels_lookup d (k : nat) :
  Z.of_nat k < d → natural_labels d !! k = Some (d - Z.of_nat k).
Proof.
  intros Hk. unfold natural_labels, stl_tools.reverse, stl_tools.seq_int.
  rewrite reverse_lookup by (rewrite length_seqZ; lia).
  rewrite length_seqZ, lookup_seqZ_lt by lia. f_equal. lia.
Qed.

Lemma natural_labels_NoDup d : NoDup (natural_labels d).
Proof.
  unfold natural_labels, stl_tools.reverse, stl_tools.seq_int.
  rewrite reverse_Permutation. apply NoDup_seqZ.
Qed.

Lemma natural_labels_nonzero d : 0 ∉ natural_labels d.
Proof.
  unfold natural_labels, stl_tools.reverse, stl_tools.seq_int.
  rewrite elem_of_reverse, elem_of_seqZ. lia.
Qed.

Lemma in_natural_order_repr d M f :
  repr M d d f →
  ∃ N, in_natural_order (RVineMatrix_new M) = Some N
    ∧ repr N d d (relabelled d f (natural_labels d)).
Proof.
  intros HM. pose proof HM as (_ & Hr & _).
  destruct (repr_nonneg _ _ _ _ HM) as [Hd _].
  unfold in_natural_order, RVineMatrix_new. simpl. rewrite Hr.
  apply relabel_elements_repr; [done|].
  rewrite natural_labels_size; lia.
Qed.

(** With pairwise distinct diagonal labels, the diagonal cell of
    column [k] is relabelled to [d - k]. *)
Lemma relabelled_diagonal d f k :
  (∀ k1 k2, 0 ≤ k1 < d → 0 ≤ k2 < d →
     f (d - 1 - k1) k1 = f (d - 1 - k2) k2 → k1 = k2) →
  0 ≤ k < d →
  relabelled d f (natural_labels d) (d - 1 - k) k = d - k.
Proof.
  intros Hdistinct Hk. unfold relabelled. case_decide; [|lia].
  apply (relabel_scan_first _ _ _ (Z.to_nat k)).
  - rewrite diagonal_labels_lookup by lia. do 2 f_equal; lia.
  - intros k' Hk'. rewrite diagonal_labels_lookup by lia.
    intros [= Heq]. apply Hdistinct in Heq; lia.
  - rewrite natural_labels_lookup by lia. f_equal. lia.
Qed.

(** The diagonal of a relabelled matrix is the relabelled diagonal. *)
Lemma relabelled_diagonal_labels d f new_labels :
  diagonal_labels d (relabelled d f new_labels)
  = (λ o, relabel_scan o (diagonal_labels d f) new_labels)
      <$> diagonal_labels d f.
Proof.
  unfold diagonal_labels at 1 3. rewrite <- list_fmap_compose.
  apply list_fmap_ext. intros i k Hk%lookup_seqZ. simpl.
  unfold relabelled. case_decide; [done|lia].
Qed.

Lemma relabelled_idem d f i j :
  0 ≤ d →
  relabelled d (relabelled d f (natural_labels d))
    (natural_labels d) i j
  = relabelled d f (natural_labels d) i j.
Proof.
  intros Hd. unfold relabelled at 1. case_decide as Hin.
  - rewrite relabelled_diagonal_labels. unfold relabelled.
    case_decide; [|lia]. apply relabel_scan_idem.
    + pose proof (diagonal_labels_length d f Hd).
      pose proof (natural_labels_size d Hd). unfold size in *. lia.
    + apply natural_labels_NoDup.
    + apply natural_labels_nonzero.
  - unfold relabelled. by case_decide.
Qed.
End natural_order.

(** * [construct_d_vine_matrix] and [get_order] *)

Section d_vine.
Implicit Types (order : list Z).

Lemma vcoeff_default order k :
  0 ≤ k < size order → vcoeff order k = Some (default 0 (vcoeff order k)).
Proof.
  intros Hk. unfold vcoeff, size in *. case_decide; [|lia].
  destruct (lookup_lt_is_Some_2 order (Z.to_nat k)) as [x ->]; [lia|done].
Qed.

Lemma construct_d_vine_matrix_repr order :
  ∃ M, construct_d_vine_matrix order = Some M
    ∧ repr M (size order) (size order) (d_vine_cells order).
Proof.
  unfold construct_d_vine_matrix.
  set (d := size order). set (ord := λ k, default 0 (vcoeff order k)).
  assert (0 ≤ d) as Hd by (unfold d, size; lia).
  destruct (for_range_inv
    (λ i m, repr m d d (λ r c,
       if decide (c < i ∧ r + c = d - 1) then ord r else 0))
    (λ i vine_matrix,
       x ← vcoeff order (d - 1 - i);
       set_coeff vine_matrix (d - 1 - i) i x)
    0 d (Constant d d 0)) as (m1 & Hrun1 & Hm1); [done| | |].
  { eapply repr_ext; [by apply Constant_repr|].
    intros r c Hr Hc. simpl. case_decide; [lia|done]. }
  { intros i m Hi Hm. rewrite vcoeff_default by (fold d; lia). simpl.
    destruct (set_coeff_repr m d d _ (d - 1 - i) i (ord (d - 1 - i)) Hm)
      as (m' & Hset & Hm'); [lia..|].
    exists m'. split; [exact Hset|]. eapply repr_ext; [done|].
    intros r c Hr Hc. simpl.
    repeat case_decide; (done || lia || (f_equal; lia)). }
  rewrite Hrun1. simpl.
  destruct (for_range_inv_max
    (λ i m, repr m d d (λ r c,
       if decide (r + c = d - 1) then ord r
       else if decide (d - 1 - i < r ∧ r + c < d - 1)
            then ord (d - 2 - r - c) else 0))
    (λ i vine_matrix,
       for_range 0 i (λ j vine_matrix,
         x ← vcoeff order (i - j - 1);
         set_coeff vine_matrix (d - 1 - i) j x) vine_matrix)
    1 d m1) as (m2 & Hrun2 & Hm2).
  { eapply repr_ext; [done|]. intros r c Hr Hc. simpl.
    repeat case_decide; (done || lia). }
  { intros i m Hi Hm.
    destruct (for_range_inv
      (λ j m, repr m d d (λ r c,
         if decide (r + c = d - 1) then ord r
         else if decide ((d - 1 - i < r ∧ r + c < d - 1)
                         ∨ (r = d - 1 - i ∧ c < j))
              then ord (d - 2 - r - c) else 0))
      (λ j vine_matrix,
         x ← vcoeff order (i - j - 1);
         set_coeff vine_matrix (d - 1 - i) j x)
      0 i m) as (m' & Hrun' & Hm'); [lia| | |].
    - eapply repr_ext; [done|]. intros r c Hr Hc. simpl.
      repeat case_decide; (done || lia).
    - intros j m0 Hj Hm0. rewrite vcoeff_default by (fold d; lia). simpl.
      destruct (set_coeff_repr m0 d d _ (d - 1 - i) j (ord (i - j - 1)) Hm0)
        as (m0' & Hset & Hm0'); [lia..|].
      exists m0'. split; [exact Hset|]. eapply repr_ext; [done|].
      intros r c Hr Hc. simpl.
      repeat case_decide; (done || lia || (f_equal; lia)).
    - exists m'. split; [done|]. eapply repr_ext; [done|].
      intros r c Hr Hc. simpl.
      repeat case_decide; (done || lia). }
  exists m2. split; [done|]. eapply repr_ext; [done|].
  intros r c Hr Hc. unfold d_vine_cells. fold d. simpl.
  repeat case_decide; (done || lia).
Qed.

Lemma get_order_repr M d f :
  repr M d d f →
  get_order (RVineMatrix_new M) = Some ((λ k, f k (d - 1 - k)) <$> seqZ 0 d).
Proof.
  intros HM. destruct (repr_nonneg _ _ _ _ HM) as [Hd _].
  unfold get_order, RVineMatrix_new. simpl.
  rewrite (old_labels_repr _ _ _ HM). simpl. f_equal.
  unfold vreverse, diagonal_labels.
  apply list_eq_same_length with (Z.to_nat d).
  - by rewrite length_fmap, length_seqZ.
  - by rewrite length_reverse, length_fmap, length_seqZ.
  - intros k x y Hk Hx Hy.
    rewrite reverse_lookup in Hx by (rewrite length_fmap, length_seqZ; lia).
    rewrite length_fmap, length_seqZ in Hx.
    rewrite list_lookup_fmap, lookup_seqZ_lt in Hx by lia.
    rewrite list_lookup_fmap, lookup_seqZ_lt in Hy by lia.
    simpl in *. injection Hx as <-. injection Hy as <-. f_equal; lia.
Qed.
(** The construction rule of [construct_d_vine_matrix], cell by cell, for
    any vector [order]. *)
Lemma construct_d_vine_matrix_rule order :
  let d := size order in
  ∃ M, construct_d_vine_matrix order = Some M
    ∧ structure_matrix d M
    ∧ (∀ i, 0 ≤ i < d →
         is_Some (coeff M (d - 1 - i) i)
         ∧ coeff M (d - 1 - i) i = vcoeff order (d - 1 - i))
    ∧ (∀ i j, 1 ≤ i < d → 0 ≤ j < i →
         is_Some (coeff M (d - 1 - i) j)
         ∧ coeff M (d - 1 - i) j = vcoeff order (i - j - 1))
    ∧ (∀ r c, 0 ≤ r < d → 0 ≤ c < d → d - 1 < r + c → coeff M r c = Some 0).
Proof.
  intros d. destruct (construct_d_vine_matrix_repr order) as (M & HM & HMr).
  fold d in HMr. pose proof HMr as (Hwf & Hr & Hc & Hf).
  exists M. split_and!; try done.
  - intros i Hi. rewrite Hf by lia. split; [done|].
    rewrite vcoeff_default by (fold d; lia). f_equal.
    unfold d_vine_cells. fold d. by rewrite decide_True by lia.
  - intros i j Hi Hj. rewrite Hf by lia. split; [done|].
    rewrite vcoeff_default by (fold d; lia). f_equal.
    unfold d_vine_cells. fold d.
    rewrite decide_False, decide_True by lia. do 2 f_equal. lia.
  - intros r c Hr0 Hc0 Hout. rewrite Hf by lia. f_equal.
    unfold d_vine_cells. fold d. by rewrite !decide_False by lia.
Qed.
End d_vine.

(** * [get_max_matrix] *)

Section max_matrix.
Implicit Types (M N : Mat Z) (f g : Z → Z → Z).

Lemma running_max_succ g i j :
  0 ≤ i →
  running_max g (Z.to_nat (i + 1)) j
  = Z.max (running_max g (Z.to_nat i) j) (g (i + 1) j).
Proof.
  intros Hi. replace (Z.to_nat (i + 1)) with (S (Z.to_nat i)) by lia.
  simpl running_max. do 2 f_equal. lia.
Qed.

Lemma get_max_matrix_repr d M f :
  repr M d d f →
  ∃ MX, get_max_matrix (RVineMatrix_new M) = Some MX
    ∧ repr MX d d (max_cells d (relabelled d f (natural_labels d))).
Proof.
  intros HM. pose proof HM as (_ & Hrows & _).
  destruct (in_natural_order_repr d M f HM) as (N & HN & HNrepr).
  unfold get_max_matrix. rewrite HN. simpl. rewrite Hrows.
  set (g := relabelled d f (natural_labels d)) in *.
  destruct (repr_nonneg _ _ _ _ HM) as [Hd _].
  destruct (for_range_inv_max
    (λ i m, repr m d d (λ r c,
       if decide (r ≤ i ∧ r + c < d)
       then running_max g (Z.to_nat r) c else g r c))
    (λ i max_matrix,
       for_range 0 (d - i - 1) (λ j max_matrix,
         b ← block max_matrix i j 2 1;
         v ← maxCoeff b;
         set_coeff max_matrix (i + 1) j v) max_matrix)
    0 (d - 1) N) as (MX & Hrun & HMX).
  { eapply repr_ext; [done|]. intros r c Hr Hc. simpl.
    case_decide as Hd0; [|done]. by replace r with 0 by lia. }
  { intros i m Hi Hm.
    destruct (for_range_inv
      (λ j m, repr m d d (λ r c,
         if decide ((r ≤ i ∧ r + c < d) ∨ (r = i + 1 ∧ c < j))
         then running_max g (Z.to_nat r) c else g r c))
      (λ j max_matrix,
         b ← block max_matrix i j 2 1;
         v ← maxCoeff b;
         set_coeff max_matrix (i + 1) j v)
      0 (d - i - 1) m) as (m' & Hrun' & Hm'); [lia| | |].
    - eapply repr_ext; [done|]. intros r c Hr Hc. simpl.
      repeat case_decide; (done || lia).
    - intros j m0 Hj Hm0.
      destruct (block_repr m0 d d _ i j 2 1 Hm0) as (b & Hb & Hbrepr);
        [lia..|].
      rewrite Hb. simpl. rewrite (maxCoeff_repr_2_1 _ _ Hbrepr). simpl.
      rewrite !Z.add_0_r.
      rewrite decide_True by lia. rewrite decide_False by lia.
      rewrite <- running_max_succ by lia.
      destruct (set_coeff_repr m0 d d _ (i + 1) j
                  (running_max g (Z.to_nat (i + 1)) j) Hm0)
        as (m0' & Hset & Hm0'); [lia..|].
      exists m0'. split; [exact Hset|]. eapply repr_ext; [done|].
      intros r c Hr Hc. simpl.
      repeat case_decide; (done || lia || (f_equal; lia)).
    - exists m'. split; [done|]. eapply repr_ext; [done|].
      intros r c Hr Hc. simpl.
      repeat case_decide; (done || lia). }
  exists MX. split; [done|]. eapply repr_ext; [done|].
  intros r c Hr Hc. unfold max_cells. simpl.
  repeat case_decide; (done || lia).
Qed.
End max_matrix.

(** * [get_needed_hfunc1] and [get_needed_hfunc2] *)

Section needed_hfunc.
Implicit Types (M N : Mat Z) (f g : Z → Z → Z).

Lemma get_needed_hfunc1_repr d M f :
  repr M d d f →
  let g := relabelled d f (natural_labels d) in
  ∃ H, get_needed_hfunc1 (RVineMatrix_new M) = Some H
    ∧ repr H d d (hfunc1_cells d g (max_cells d g)).
Proof.
  intros HM g. pose proof HM as (_ & Hrows & _).
  destruct (in_natural_order_repr d M f HM) as (N & HN & HNr).
  destruct (get_max_matrix_repr d M f HM) as (MX & HMX & HMXr).
  fold g in HNr, HMXr. set (mx := max_cells d g) in *.
  destruct (repr_nonneg _ _ _ _ HM) as [Hd _].
  unfold get_needed_hfunc1. rewrite HN, HMX. simpl. rewrite Hrows.
  set (E := λ r c, exists_below c (λ k,
              bool_decide (g r k ≠ d - c) && bool_decide (mx r k = d - c))).
  destruct (for_range_inv_max
    (λ i H, repr H d d (λ r c,
       if decide (1 ≤ c < i ∧ r < d - c) then E r c else false))
    (λ i needed_hfunc1,
       b ← block N 0 0 (d - i) i;
       b0 ← block MX 0 0 (d - i) i;
       is_different ←
         cwise_and (cwise (λ x, bool_decide (x ≠ d - i)) b)
                   (cwise (λ x, bool_decide (x = d - i)) b0);
       assign_block needed_hfunc1 0 i (d - i) 1 (rowwise_any is_different))
    1 (d - 1) (Constant d d false)) as (H & Hrun & HH).
  { eapply repr_ext; [by apply Constant_repr|].
    intros r c Hr Hc. simpl. case_decide; [lia|done]. }
  { intros i H0 Hi HH0.
    destruct (block_repr N d d g 0 0 (d - i) i HNr) as (b1 & Hb1 & Hb1r);
      [lia..|].
    destruct (block_repr MX d d mx 0 0 (d - i) i HMXr)
      as (b2 & Hb2 & Hb2r); [lia..|].
    pose proof (cwise_repr (λ x, bool_decide (x ≠ d - i)) _ _ _ _ Hb1r)
      as Hc1.
    pose proof (cwise_repr (λ x, bool_decide (x = d - i)) _ _ _ _ Hb2r)
      as Hc2.
    destruct (cwise_and_repr _ _ _ _ _ _ Hc1 Hc2) as (ab & Hab & Habr).
    pose proof (rowwise_any_repr _ _ _ _ Habr) as Hany.
    destruct (assign_block_repr H0 d d _ _ (d - i) 1 _ 0 i HH0 Hany)
      as (H1 & HH1 & HH1r); [lia..|].
    exists H1. split.
    { rewrite Hb1. simpl. rewrite Hb2. simpl. rewrite Hab. exact HH1. }
    eapply repr_ext; [done|]. intros r c Hr Hc. simpl.
    repeat case_decide; try (done || lia).
    replace c with i by lia. unfold E. apply exists_below_ext.
    intros k Hk. by rewrite !Z.add_0_l, Z.sub_0_r. }
  exists H. split; [done|]. eapply repr_ext; [done|].
  intros r c Hr Hc. unfold hfunc1_cells. simpl.
  repeat case_decide; (done || lia).
Qed.

Lemma get_needed_hfunc2_repr d M f :
  repr M d d f → 1 ≤ d →
  let g := relabelled d f (natural_labels d) in
  ∃ H, get_needed_hfunc2 (RVineMatrix_new M) = Some H
    ∧ repr H d d (hfunc2_cells d g (max_cells d g)).
Proof.
  intros HM Hd g. pose proof HM as (_ & Hrows & _).
  destruct (in_natural_order_repr d M f HM) as (N & HN & HNr).
  destruct (get_max_matrix_repr d M f HM) as (MX & HMX & HMXr).
  fold g in HNr, HMXr. set (mx := max_cells d g) in *.
  unfold get_needed_hfunc2. simpl. rewrite Hrows.
  destruct (assign_block_repr (Constant d d false) d d _
              (Constant (d - 1) 1 true) (d - 1) 1 _ 0 0
              (Constant_repr d d false ltac:(lia) ltac:(lia))
              (Constant_repr (d - 1) 1 true ltac:(lia) ltac:(lia)))
    as (H0 & HH0 & HH0r); [lia..|].
  rewrite HH0. simpl. rewrite HN, HMX. simpl.
  set (E := λ r c, exists_below c (λ k,
              bool_decide (g r k = d - c) && bool_decide (mx r k = d - c))).
  destruct (for_range_inv_max
    (λ i H, repr H d d (λ r c,
       if decide (c = 0) then bool_decide (r < d - 1)
       else if decide (c < i) then
         if decide (r < d - c - 1) then true
         else if decide (r = d - c - 1) then E r c else false
       else false))
    (λ i needed_hfunc2,
       needed_hfunc2 ←
         assign_block needed_hfunc2 0 i (d - i) 1
           (Constant (d - i) 1 true);
       b ← block N (d - i - 1) 0 1 i;
       b0 ← block MX (d - i - 1) 0 1 i;
       both ←
         cwise_and (cwise (λ x, bool_decide (x = d - i)) b)
                   (cwise (λ x, bool_decide (x = d - i)) b0);
       set_coeff needed_hfunc2 (d - i - 1) i (any both))
    1 (d - 1) H0) as (H & Hrun & HH).
  { eapply repr_ext; [done|]. intros r c Hr Hc. simpl.
    repeat case_decide; (done || lia). }
  { intros i H1 Hi HH1.
    destruct (assign_block_repr H1 d d _
                (Constant (d - i) 1 true) (d - i) 1 _ 0 i HH1
                (Constant_repr (d - i) 1 true ltac:(lia) ltac:(lia)))
      as (H2 & HH2 & HH2r); [lia..|].
    destruct (block_repr N d d g (d - i - 1) 0 1 i HNr)
      as (b1 & Hb1 & Hb1r); [lia..|].
    destruct (block_repr MX d d mx (d - i - 1) 0 1 i HMXr)
      as (b2 & Hb2 & Hb2r); [lia..|].
    pose proof (cwise_repr (λ x, bool_decide (x = d - i)) _ _ _ _ Hb1r)
      as Hc1.
    pose proof (cwise_repr (λ x, bool_decide (x = d - i)) _ _ _ _ Hb2r)
      as Hc2.
    destruct (cwise_and_repr _ _ _ _ _ _ Hc1 Hc2) as (ab & Hab & Habr).
    pose proof (any_repr_row _ _ _ Habr) as Hany.
    destruct (set_coeff_repr H2 d d _ (d - i - 1) i (any ab) HH2r)
      as (H3 & HH3 & HH3r); [lia..|].
    exists H3. split.
    { rewrite HH2. simpl. rewrite Hb1. simpl. rewrite Hb2. simpl.
      rewrite Hab. exact HH3. }
    eapply repr_ext; [done|]. intros r c Hr Hc. simpl.
    repeat case_decide; try (done || lia).
    rewrite Hany. replace c with i by lia. replace r with (d - i - 1) by lia.
    unfold E. apply exists_below_ext.
    intros k Hk. by rewrite !Z.add_0_l, !Z.add_0_r. }
  exists H. split.
  { exact Hrun. }
  eapply repr_ext; [done|].
  intros r c Hr Hc. unfold hfunc2_cells. simpl.
  repeat case_decide; (done || lia).
Qed.
End needed_hfunc.

(** * Properties of the structure-matrix algebra *)

(** Shape of a concrete matrix. *)
Ltac solve_structure_matrix :=
  split; [split_and!; [done|done|reflexivity|repeat constructor]
         |split; reflexivity].

Lemma structure_matrix_d_vine_1234 : structure_matrix 4 d_vine_1234.
Proof. solve_structure_matrix. Defined.

Lemma structure_matrix_312 : structure_matrix 3 matrix_312.
Proof. solve_structure_matrix. Defined.

(** Natural-order coefficients of a structure matrix. *)
Lemma in_natural_order_cells d M :
  structure_matrix d M →
  ∃ N, in_natural_order (RVineMatrix_new M) = Some N
    ∧ repr N d d (relabelled d (coeff_or 0 M) (natural_labels d)).
Proof. intros HM%structure_matrix_repr. by apply in_natural_order_repr. Qed.

(** C1: when the diagonal entries of a [d]-by-[d] structure matrix (cells
    [(d-1-i, i)]) are pairwise distinct and the entries of its triangle
    are among them, the diagonal of [in_natural_order], read from the
    bottom row upward, is [(d, d-1, ..., 1)]: cell [(d-1-i, i)] holds
    [d - i]. *)
Theorem in_natural_order_diagonal d M :
  structure_matrix d M →
  (∀ i i', 0 ≤ i < d → 0 ≤ i' < d →
     coeff M (d - 1 - i) i = coeff M (d - 1 - i') i' → i = i') →
  (∀ r c, 0 ≤ r → 0 ≤ c → r + c < d →
     ∃ k, 0 ≤ k < d ∧ coeff M r c = coeff M (d - 1 - k) k) →
  ∃ N, in_natural_order (RVineMatrix_new M) = Some N
    ∧ diagonal (colwise_reverse N) = Some ((λ i, d - i) <$> seqZ 0 d)
    ∧ ∀ i, 0 ≤ i < d → coeff N (d - 1 - i) i = Some (d - i).
Proof.
  intros HM Hdistinct _.
  destruct (in_natural_order_cells d M HM) as (N & HN & HNr).
  pose proof (structure_matrix_repr d M HM) as (_ & _ & _ & HMf).
  destruct (repr_nonneg _ _ _ _ HNr) as [Hd _].
  assert (∀ k, 0 ≤ k < d →
    relabelled d (coeff_or 0 M) (natural_labels d) (d - 1 - k) k = d - k)
    as Hdiag.
  { intros k Hk. apply relabelled_diagonal; [|done].
    intros k1 k2 Hk1 Hk2 Heq. apply Hdistinct; [done..|].
    rewrite !HMf by lia. by f_equal. }
  exists N. split; [done|]. split.
  - rewrite (old_labels_repr _ _ _ HNr). f_equal.
    apply list_eq_same_length with (Z.to_nat d).
    + by rewrite length_fmap, length_seqZ.
    + pose proof (diagonal_labels_length d
        (relabelled d (coeff_or 0 M) (natural_labels d)) Hd).
      unfold size in *. lia.
    + intros k x y Hk Hx Hy.
      rewrite diagonal_labels_lookup in Hx by lia.
      rewrite list_lookup_fmap, lookup_seqZ_lt in Hy by lia.
      rewrite Hdiag in Hx by lia. simpl in Hy.
      injection Hx as <-. injection Hy as <-. lia.
  - intros i Hi. destruct HNr as (_ & _ & _ & HNf).
    rewrite HNf by lia. f_equal. by apply Hdiag.
Qed.

Lemma in_natural_order_diagonal_witness :
  ∃ N, in_natural_order (RVineMatrix_new matrix_312) = Some N
    ∧ diagonal (colwise_reverse N) = Some [3; 2; 1]
    ∧ ∀ i, 0 ≤ i < 3 → coeff N (3 - 1 - i) i = Some (3 - i).
Proof.
  apply (in_natural_order_diagonal 3 matrix_312).
  - exact structure_matrix_312.
  - intros i i' Hi Hi'.
    assert (i = 0 ∨ i = 1 ∨ i = 2) as [->|[->| ->]] by lia;
      assert (i' = 0 ∨ i' = 1 ∨ i' = 2) as [->|[->| ->]] by lia;
      vm_compute; congruence.
  - intros r c Hr Hc Hrc.
    assert (r = 0 ∨ r = 1 ∨ r = 2) as [->|[->| ->]] by lia;
      assert (c = 0 ∨ c = 1 ∨ c = 2) as [->|[->| ->]] by lia;
      try lia;
      first [ exists 0; split; [lia|reflexivity]
            | exists 1; split; [lia|reflexivity]
            | exists 2; split; [lia|reflexivity] ].
Defined.

(** C6: [in_natural_order] is idempotent: for every [d]-by-[d] structure
    matrix, whatever its labels, converting the natural-order matrix to
    natural order again returns it unchanged. *)
Theorem in_natural_order_idempotent d M :
  structure_matrix d M →
  ∃ N, in_natural_order (RVineMatrix_new M) = Some N
    ∧ in_natural_order (RVineMatrix_new N) = Some N.
Proof.
  intros HM. destruct (in_natural_order_cells d M HM) as (N & HN & HNr).
  destruct (in_natural_order_repr d N _ HNr) as (N' & HN' & HN'r).
  destruct (repr_nonneg _ _ _ _ HNr) as [Hd _].
  exists N. split; [done|]. rewrite HN'. f_equal.
  apply (repr_inj N' N d d _ HN'r). eapply repr_ext; [exact HNr|].
  intros i j Hi Hj. symmetry. by apply relabelled_idem.
Qed.

Lemma in_natural_order_idempotent_witness :
  structure_matrix 3 matrix_312
  ∧ ∃ N, in_natural_order (RVineMatrix_new matrix_312) = Some N
      ∧ in_natural_order (RVineMatrix_new N) = Some N.
Proof.
  split; [exact structure_matrix_312|].
  apply (in_natural_order_idempotent 3 matrix_312 structure_matrix_312).
Defined.

(** C5: for every permutation [order] of [1..d], [get_order] applied to
    the matrix built by [construct_d_vine_matrix order] returns [order].
    (The proof reads the diagonal cell of row [k], which holds [order(k)];
    it does not use that [order] is a permutation.) *)
Theorem d_vine_order_round_trip d order :
  order ≡ₚ seqZ 1 d →
  ∃ M, construct_d_vine_matrix order = Some M
    ∧ get_order (RVineMatrix_new M) = Some order.
Proof.
  intros _.
  destruct (construct_d_vine_matrix_repr order) as (M & HM & HMr).
  exists M. split; [done|]. rewrite (get_order_repr _ _ _ HMr). f_equal.
  apply list_eq_same_length with (length order); [done| |].
  { rewrite length_fmap, length_seqZ. unfold size. lia. }
  intros k x y Hk Hx Hy.
  rewrite list_lookup_fmap, lookup_seqZ_lt in Hx by (unfold size; lia).
  simpl in Hx. injection Hx as <-.
  unfold d_vine_cells. rewrite decide_True by lia.
  rewrite Z.add_0_l, vcoeff_lookup, Hy. done.
Qed.

Lemma d_vine_order_round_trip_witness :
  [2; 4; 1; 3] ≡ₚ seqZ 1 4
  ∧ ∃ M, construct_d_vine_matrix [2; 4; 1; 3] = Some M
      ∧ get_order (RVineMatrix_new M) = Some [2; 4; 1; 3].
Proof.
  assert ([2; 4; 1; 3] ≡ₚ seqZ 1 4) as Hperm.
  { change (seqZ 1 4) with [1; 2; 3; 4].
    apply (Permutation_trans (l' := [2; 1; 4; 3])).
    - apply perm_skip, perm_swap.
    - apply (Permutation_trans (l' := [1; 2; 4; 3])).
      + apply perm_swap.
      + do 2 apply perm_skip. apply perm_swap. }
  split; [exact Hperm|].
  apply (d_vine_order_round_trip 4 [2; 4; 1; 3] Hperm).
Defined.

(** Natural-order and maximum-matrix coefficients of a structure matrix. *)
Lemma get_max_matrix_cells d M :
  structure_matrix d M →
  ∃ N MX g,
    in_natural_order (RVineMatrix_new M) = Some N
    ∧ get_max_matrix (RVineMatrix_new M) = Some MX
    ∧ repr N d d g ∧ repr MX d d (max_cells d g).
Proof.
  intros HM%structure_matrix_repr.
  destruct (in_natural_order_repr d M _ HM) as (N & HN & HNr).
  destruct (get_max_matrix_repr d M _ HM) as (MX & HMX & HMXr).
  by exists N, MX, (relabelled d (coeff_or 0 M) (natural_labels d)).
Qed.

Lemma running_max_pred g i j :
  1 ≤ i →
  running_max g (Z.to_nat i) j
  = Z.max (running_max g (Z.to_nat (i - 1)) j) (g i j).
Proof.
  intros Hi. replace i with (i - 1 + 1) at 1 3 by lia.
  apply running_max_succ. lia.
Qed.

Lemma running_max_mono g j (n n' : nat) :
  (n ≤ n')%nat → running_max g n j ≤ running_max g n' j.
Proof.
  induction 1 as [|n' _ IH]; [done|].
  change (running_max g (S n') j)
    with (Z.max (running_max g n' j) (g (Z.of_nat (S n')) j)).
  lia.
Qed.

(** C2: in the output of [get_max_matrix], row 0 equals row 0 of the
    natural-order matrix, and every cell [(i, j)] of the triangle with
    [i >= 1] (so [j <= d-1-i]) is the larger of the maximum-matrix cell
    above it and the natural-order cell [(i, j)]. *)
Theorem get_max_matrix_recurrence d M :
  structure_matrix d M →
  ∃ N MX,
    in_natural_order (RVineMatrix_new M) = Some N
    ∧ get_max_matrix (RVineMatrix_new M) = Some MX
    ∧ (∀ j, 0 ≤ j < d → is_Some (coeff MX 0 j) ∧ coeff MX 0 j = coeff N 0 j)
    ∧ (∀ i j, 1 ≤ i → 0 ≤ j ≤ d - 1 - i →
         ∃ above here, coeff MX (i - 1) j = Some above
           ∧ coeff N i j = Some here
           ∧ coeff MX i j = Some (Z.max above here)).
Proof.
  intros HM.
  destruct (get_max_matrix_cells d M HM)
    as (N & MX & g & HN & HMX & (_ & _ & _ & HNf) & (_ & _ & _ & HMXf)).
  exists N, MX. split; [done|]. split; [done|]. split.
  - intros j Hj. rewrite HMXf, HNf by lia. split; [done|]. f_equal.
    unfold max_cells. by rewrite decide_True by lia.
  - intros i j Hi Hj.
    exists (running_max g (Z.to_nat (i - 1)) j), (g i j).
    rewrite !HMXf, HNf by lia. unfold max_cells.
    rewrite !decide_True by lia. split; [done|]. split; [done|].
    f_equal. by apply running_max_pred.
Qed.

Lemma get_max_matrix_recurrence_witness :
  structure_matrix 4 d_vine_1234
  ∧ ∃ N MX,
      in_natural_order (RVineMatrix_new d_vine_1234) = Some N
      ∧ get_max_matrix (RVineMatrix_new d_vine_1234) = Some MX
      ∧ (∀ j, 0 ≤ j < 4 →
           is_Some (coeff MX 0 j) ∧ coeff MX 0 j = coeff N 0 j)
      ∧ (∀ i j, 1 ≤ i → 0 ≤ j ≤ 4 - 1 - i →
           ∃ above here, coeff MX (i - 1) j = Some above
             ∧ coeff N i j = Some here
             ∧ coeff MX i j = Some (Z.max above here)).
Proof.
  split; [exact structure_matrix_d_vine_1234|].
  apply (get_max_matrix_recurrence 4 d_vine_1234 structure_matrix_d_vine_1234).
Defined.

(** C8: the output of [get_max_matrix] is non-decreasing down every
    column of the triangle: for rows [i < i'] of column [j] with both
    cells inside the triangle, the cell of row [i] is at most the cell of
    row [i']. *)
Theorem get_max_matrix_monotone d M :
  structure_matrix d M →
  ∃ MX, get_max_matrix (RVineMatrix_new M) = Some MX
    ∧ ∀ j i i', 0 ≤ j → 0 ≤ i → i < i' → i + j ≤ d - 1 → i' + j ≤ d - 1 →
        ∃ upper lower, coeff MX i j = Some upper
          ∧ coeff MX i' j = Some lower ∧ upper ≤ lower.
Proof.
  intros HM.
  destruct (get_max_matrix_cells d M HM)
    as (N & MX & g & HN & HMX & _ & (_ & _ & _ & HMXf)).
  exists MX. split; [done|]. intros j i i' Hj Hi Hlt Hin Hin'.
  exists (max_cells d g i j), (max_cells d g i' j).
  rewrite !HMXf by lia. split; [done|]. split; [done|].
  unfold max_cells. rewrite !decide_True by lia.
  apply running_max_mono. lia.
Qed.

Lemma get_max_matrix_monotone_witness :
  structure_matrix 4 d_vine_1234
  ∧ ∃ MX, get_max_matrix (RVineMatrix_new d_vine_1234) = Some MX
      ∧ ∀ j i i', 0 ≤ j → 0 ≤ i → i < i' → i + j ≤ 4 - 1 → i' + j ≤ 4 - 1 →
          ∃ upper lower, coeff MX i j = Some upper
            ∧ coeff MX i' j = Some lower ∧ upper ≤ lower.
Proof.
  split; [exact structure_matrix_d_vine_1234|].
  apply (get_max_matrix_monotone 4 d_vine_1234 structure_matrix_d_vine_1234).
Defined.

(** C3: for [d >= 2], [get_needed_hfunc2] has column 0 true in rows
    [0..d-2] and false in row [d-1]; in every column [i] with
    [1 <= i <= d-2], writing [j = d - i], rows [0..j-2] are true and the
    diagonal cell [(j-1, i)] is true exactly when some column [k < i] of
    row [j-1] holds [j] both in the natural-order matrix and in the
    maximum matrix; every other cell is false. *)
Theorem get_needed_hfunc2_cells d M :
  2 ≤ d →
  structure_matrix d M →
  ∃ N MX H,
    in_natural_order (RVineMatrix_new M) = Some N
    ∧ get_max_matrix (RVineMatrix_new M) = Some MX
    ∧ get_needed_hfunc2 (RVineMatrix_new M) = Some H
    ∧ (∀ r, 0 ≤ r ≤ d - 2 → coeff H r 0 = Some true)
    ∧ coeff H (d - 1) 0 = Some false
    ∧ (∀ i r, 1 ≤ i ≤ d - 2 → 0 ≤ r ≤ d - i - 2 → coeff H r i = Some true)
    ∧ (∀ i, 1 ≤ i ≤ d - 2 →
         ∃ flag, coeff H (d - i - 1) i = Some flag
           ∧ (flag = true ↔
              ∃ k, 0 ≤ k < i
                ∧ coeff N (d - i - 1) k = Some (d - i)
                ∧ coeff MX (d - i - 1) k = Some (d - i)))
    ∧ (∀ r c, 0 ≤ r < d → 0 ≤ c < d →
         ¬ (c = 0 ∧ r ≤ d - 2) →
         ¬ (1 ≤ c ≤ d - 2 ∧ r ≤ d - c - 1) →
         coeff H r c = Some false).
Proof.
  intros Hd HM%structure_matrix_repr.
  destruct (in_natural_order_repr d M _ HM) as (N & HN & (_ & _ & _ & HNf)).
  destruct (get_max_matrix_repr d M _ HM) as (MX & HMX & (_ & _ & _ & HMXf)).
  destruct (get_needed_hfunc2_repr d M _ HM) as (H & HH & (_ & _ & _ & HHf));
    [lia|].
  exists N, MX, H. split_and!; try done.
  - intros r Hr. rewrite HHf by lia. f_equal. unfold hfunc2_cells.
    rewrite decide_True by done. apply bool_decide_eq_true. lia.
  - rewrite HHf by lia. f_equal. unfold hfunc2_cells.
    rewrite decide_True by done. apply bool_decide_eq_false. lia.
  - intros i r Hi Hr. rewrite HHf by lia. f_equal. unfold hfunc2_cells.
    rewrite decide_False, !decide_True by lia. done.
  - intros i Hi. eexists. split; [apply HHf; lia|]. unfold hfunc2_cells.
    rewrite decide_False, decide_True, decide_False, decide_True by lia.
    rewrite exists_below_true. split.
    + intros (k & Hk & [Hn Hm]%andb_true_iff). exists k.
      apply bool_decide_eq_true in Hn, Hm. split; [done|].
      rewrite HNf, HMXf by lia. split; f_equal; [rewrite Hn|rewrite Hm]; lia.
    + intros (k & Hk & Hn & Hm). exists k. split; [done|].
      rewrite HNf in Hn by lia. rewrite HMXf in Hm by lia.
      injection Hn as Hn. injection Hm as Hm.
      apply andb_true_iff. split; apply bool_decide_eq_true; lia.
  - intros r c Hr Hc Hc0 Hci. rewrite HHf by lia. f_equal.
    unfold hfunc2_cells. repeat case_decide; (done || lia).
Qed.

Lemma get_needed_hfunc2_cells_witness :
  2 ≤ 4 ∧ structure_matrix 4 d_vine_1234
  ∧ ∃ N MX H,
      in_natural_order (RVineMatrix_new d_vine_1234) = Some N
      ∧ get_max_matrix (RVineMatrix_new d_vine_1234) = Some MX
      ∧ get_needed_hfunc2 (RVineMatrix_new d_vine_1234) = Some H
      ∧ (∀ r, 0 ≤ r ≤ 4 - 2 → coeff H r 0 = Some true)
      ∧ coeff H (4 - 1) 0 = Some false
      ∧ (∀ i r, 1 ≤ i ≤ 4 - 2 → 0 ≤ r ≤ 4 - i - 2 → coeff H r i = Some true)
      ∧ (∀ i, 1 ≤ i ≤ 4 - 2 →
           ∃ flag, coeff H (4 - i - 1) i = Some flag
             ∧ (flag = true ↔
                ∃ k, 0 ≤ k < i
                  ∧ coeff N (4 - i - 1) k = Some (4 - i)
                  ∧ coeff MX (4 - i - 1) k = Some (4 - i)))
      ∧ (∀ r c, 0 ≤ r < 4 → 0 ≤ c < 4 →
           ¬ (c = 0 ∧ r ≤ 4 - 2) →
           ¬ (1 ≤ c ≤ 4 - 2 ∧ r ≤ 4 - c - 1) →
           coeff H r c = Some false).
Proof.
  split; [lia|]. split; [exact structure_matrix_d_vine_1234|].
  apply (get_needed_hfunc2_cells 4 d_vine_1234);
    [lia|exact structure_matrix_d_vine_1234].
Defined.

(** C4: for [d >= 3], in the output of [get_needed_hfunc1], for every
    tree level [i] from 1 to [d-2] with [j = d - i], the cell [(row, i)]
    of a row in [0..j-1] is true exactly when some column [k < i] holds in
    that row a natural-order entry different from [j] and a
    maximum-matrix entry equal to [j]; every cell outside these
    positions is false. *)
Theorem get_needed_hfunc1_cells d M :
  3 ≤ d →
  structure_matrix d M →
  ∃ N MX H,
    in_natural_order (RVineMatrix_new M) = Some N
    ∧ get_max_matrix (RVineMatrix_new M) = Some MX
    ∧ get_needed_hfunc1 (RVineMatrix_new M) = Some H
    ∧ (∀ i row, 1 ≤ i ≤ d - 2 → 0 ≤ row ≤ d - i - 1 →
         ∃ flag, coeff H row i = Some flag
           ∧ (flag = true ↔
              ∃ k x, 0 ≤ k < i
                ∧ coeff N row k = Some x ∧ x ≠ d - i
                ∧ coeff MX row k = Some (d - i)))
    ∧ (∀ row col, 0 ≤ row < d → 0 ≤ col < d →
         ¬ (1 ≤ col ≤ d - 2 ∧ row ≤ d - col - 1) →
         coeff H row col = Some false).
Proof.
  intros Hd HM%structure_matrix_repr.
  destruct (in_natural_order_repr d M _ HM) as (N & HN & (_ & _ & _ & HNf)).
  destruct (get_max_matrix_repr d M _ HM) as (MX & HMX & (_ & _ & _ & HMXf)).
  destruct (get_needed_hfunc1_repr d M _ HM) as (H & HH & (_ & _ & _ & HHf)).
  exists N, MX, H. split_and!; try done.
  - intros i row Hi Hrow. eexists. split; [apply HHf; lia|].
    unfold hfunc1_cells. rewrite decide_True by lia.
    rewrite exists_below_true. split.
    + intros (k & Hk & [Hn Hm]%andb_true_iff). eexists k, _.
      apply bool_decide_eq_true in Hn, Hm. split; [done|].
      rewrite HNf, HMXf by lia. split; [done|]. split; [done|].
      by f_equal.
    + intros (k & x & Hk & Hn & Hne & Hm). exists k. split; [done|].
      rewrite HNf in Hn by lia. rewrite HMXf in Hm by lia.
      injection Hn as Hn. injection Hm as Hm.
      apply andb_true_iff. split; apply bool_decide_eq_true; lia.
  - intros row col Hrow Hcol Hout. rewrite HHf by lia. f_equal.
    unfold hfunc1_cells. case_decide; [lia|done].
Qed.

Lemma get_needed_hfunc1_cells_witness :
  3 ≤ 4 ∧ structure_matrix 4 d_vine_1234
  ∧ ∃ N MX H,
      in_natural_order (RVineMatrix_new d_vine_1234) = Some N
      ∧ get_max_matrix (RVineMatrix_new d_vine_1234) = Some MX
      ∧ get_needed_hfunc1 (RVineMatrix_new d_vine_1234) = Some H
      ∧ (∀ i row, 1 ≤ i ≤ 4 - 2 → 0 ≤ row ≤ 4 - i - 1 →
           ∃ flag, coeff H row i = Some flag
             ∧ (flag = true ↔
                ∃ k x, 0 ≤ k < i
                  ∧ coeff N row k = Some x ∧ x ≠ 4 - i
                  ∧ coeff MX row k = Some (4 - i)))
      ∧ (∀ row col, 0 ≤ row < 4 → 0 ≤ col < 4 →
           ¬ (1 ≤ col ≤ 4 - 2 ∧ row ≤ 4 - col - 1) →
           coeff H row col = Some false).
Proof.
  split; [lia|]. split; [exact structure_matrix_d_vine_1234|].
  apply (get_needed_hfunc1_cells 4 d_vine_1234);
    [lia|exact structure_matrix_d_vine_1234].
Defined.

(** C10: the mask of [get_needed_hfunc1] is false throughout column 0
    and throughout the bottom row [d-1]; for [d <= 2] it is the all-false
    [d]-by-[d] matrix. *)
Theorem get_needed_hfunc1_border d M :
  structure_matrix d M →
  ∃ H, get_needed_hfunc1 (RVineMatrix_new M) = Some H
    ∧ (∀ r, 0 ≤ r < d → coeff H r 0 = Some false)
    ∧ (∀ c, 0 ≤ c < d → coeff H (d - 1) c = Some false)
    ∧ (d ≤ 2 → H = Constant d d false).
Proof.
  intros HM%structure_matrix_repr.
  destruct (repr_nonneg _ _ _ _ HM) as [Hd _].
  destruct (get_needed_hfunc1_repr d M _ HM) as (H & HH & HHr).
  pose proof HHr as (_ & _ & _ & HHf).
  exists H. split_and!; try done.
  - intros r Hr. rewrite HHf by lia.
    unfold hfunc1_cells. case_decide; [lia|done].
  - intros c Hc. rewrite HHf by lia.
    unfold hfunc1_cells. case_decide; [lia|done].
  - intros Hle. apply (repr_inj _ _ d d _ HHr).
    eapply repr_ext; [by apply Constant_repr|].
    intros r c Hr Hc. unfold hfunc1_cells. case_decide; [lia|done].
Qed.

Lemma get_needed_hfunc1_border_witness :
  structure_matrix 4 d_vine_1234
  ∧ ∃ H, get_needed_hfunc1 (RVineMatrix_new d_vine_1234) = Some H
      ∧ (∀ r, 0 ≤ r < 4 → coeff H r 0 = Some false)
      ∧ (∀ c, 0 ≤ c < 4 → coeff H (4 - 1) c = Some false)
      ∧ (4 ≤ 2 → H = Constant 4 4 false).
Proof.
  split; [exact structure_matrix_d_vine_1234|].
  apply (get_needed_hfunc1_border 4 d_vine_1234 structure_matrix_d_vine_1234).
Defined.

(** C7, as the code has it: for [order = [1, 2, 3, 4]],
    [construct_d_vine_matrix] returns the matrix with rows [3 2 1 1],
    [2 1 2 0], [1 3 0 0], [4 0 0 0].  Its diagonal read from the bottom
    row upward is [(4, 3, 2, 1)]; row 3 has entry 4 at column 0; row 2 has
    entry 1 at column 0 and diagonal entry 3 at column 1; and every cell
    follows the construction rule: [order(d-1-i)] at the diagonal cell
    [(d-1-i, i)], [order(i-j-1)] at row [d-1-i], column [j < i]. *)
Theorem d_vine_1234_cells :
  construct_d_vine_matrix [1; 2; 3; 4] = Some d_vine_1234
  ∧ diagonal (colwise_reverse d_vine_1234) = Some [4; 3; 2; 1]
  ∧ coeff d_vine_1234 3 0 = Some 4
  ∧ coeff d_vine_1234 2 0 = Some 1
  ∧ coeff d_vine_1234 2 1 = Some 3
  ∧ (∀ i, 0 ≤ i < 4 →
       coeff d_vine_1234 (4 - 1 - i) i = vcoeff [1; 2; 3; 4] (4 - 1 - i))
  ∧ (∀ i j, 1 ≤ i < 4 → 0 ≤ j < i →
       coeff d_vine_1234 (4 - 1 - i) j = vcoeff [1; 2; 3; 4] (i - j - 1)).
Proof.
  split_and!; try reflexivity.
  - intros i Hi.
    assert (i = 0 ∨ i = 1 ∨ i = 2 ∨ i = 3) as [->|[->|[->| ->]]] by lia;
      reflexivity.
  - intros i j Hi Hj.
    assert (i = 1 ∨ i = 2 ∨ i = 3) as [->|[->| ->]] by lia;
      assert (j = 0 ∨ j = 1 ∨ j = 2) as [->|[->| ->]] by lia;
      (reflexivity || lia).
Qed.

(** The cell values C7 states for rows 3 and 2 are not those of the
    matrix built for [order = [1, 2, 3, 4]]. *)
Lemma d_vine_1234_stated_cells_fail :
  ¬ ∃ M, construct_d_vine_matrix [1; 2; 3; 4] = Some M
      ∧ diagonal (colwise_reverse M) = Some [4; 3; 2; 1]
      ∧ coeff M 3 0 = Some 1
      ∧ coeff M 2 0 = Some 2
      ∧ coeff M 2 1 = Some 2.
Proof.
  intros (M & HM & _ & H30 & _).
  assert (construct_d_vine_matrix [1; 2; 3; 4] = Some d_vine_1234) as HM'
    by reflexivity.
  rewrite HM' in HM. injection HM as <-. discriminate H30.
Qed.

(** [relabel_one] never faults on label vectors of equal length. *)
Lemma relabel_one_total x old_labels new_labels :
  size old_labels = size new_labels →
  relabel_one x old_labels new_labels
  = Some (relabel_scan x old_labels new_labels).
Proof. intros Hsize. apply relabel_one_scan. lia. Qed.

(** C9, as the code has it: on label vectors of equal length,
    [relabel_one] signals no error; it returns [new_labels[k]] for the
    first index [k] with [old_labels[k] = x], and the sentinel 0 when [x]
    occurs nowhere in [old_labels].  A result of 0 means that [x] occurs
    nowhere in [old_labels] provided no entry of [new_labels] is 0. *)
Theorem relabel_one_first_match x old_labels new_labels :
  size old_labels = size new_labels →
  is_Some (relabel_one x old_labels new_labels)
  ∧ (∀ k, vcoeff old_labels k = Some x →
       (∀ k', 0 ≤ k' < k → vcoeff old_labels k' ≠ Some x) →
       is_Some (vcoeff new_labels k)
       ∧ relabel_one x old_labels new_labels = vcoeff new_labels k)
  ∧ (x ∉ old_labels → relabel_one x old_labels new_labels = Some 0)
  ∧ (0 ∉ new_labels →
       (relabel_one x old_labels new_labels = Some 0 ↔ x ∉ old_labels)).
Proof.
  intros Hsize. rewrite (relabel_one_total x _ _ Hsize).
  assert (x ∉ old_labels → relabel_scan x old_labels new_labels = 0)
    as Hnotin by apply relabel_scan_notin.
  split_and!.
  - done.
  - intros k Hk Hfirst.
    pose proof (vcoeff_Some_range _ _ _ Hk) as Hrange.
    pose proof (vcoeff_default new_labels k ltac:(lia)) as Hy.
    revert Hy. generalize (default 0 (vcoeff new_labels k)). intros y Hy.
    split; [by rewrite Hy|]. rewrite Hy. f_equal.
    apply (relabel_scan_first _ _ _ (Z.to_nat k)).
    + unfold vcoeff in Hk. by case_decide.
    + intros k' Hk'. rewrite <- vcoeff_lookup. apply Hfirst. lia.
    + unfold vcoeff in Hy. by case_decide.
  - intros Hx. f_equal. by apply Hnotin.
  - intros H0. split; [|by intros ->%Hnotin].
    intros [= Hzero] Hin. apply H0. rewrite <- Hzero.
    apply relabel_scan_in; [|done]. unfold size in Hsize. lia.
Qed.

Lemma relabel_one_first_match_witness :
  size [3; 1; 2] = size [3; 2; 1]
  ∧ relabel_one 1 [3; 1; 2] [3; 2; 1] = Some 2
  ∧ relabel_one 4 [3; 1; 2] [3; 2; 1] = Some 0.
Proof.
  split; [reflexivity|].
  destruct (relabel_one_first_match 1 [3; 1; 2] [3; 2; 1] eq_refl)
    as (_ & Hfirst & _).
  destruct (relabel_one_first_match 4 [3; 1; 2] [3; 2; 1] eq_refl)
    as (_ & _ & Hnotin & _).
  split.
  - apply (Hfirst 1); [reflexivity|].
    intros k' Hk'. replace k' with 0 by lia. discriminate.
  - apply Hnotin. intros Hin.
    repeat (apply elem_of_cons in Hin as [Hin|Hin]; [discriminate Hin|]).
    by apply elem_of_nil in Hin.
Defined.

(** The "only if" half of C9 fails when the matching new label is itself
    0: the result is the sentinel although [x] occurs in [old_labels]. *)
Lemma relabel_one_zero_label :
  size [1] = size [0]
  ∧ ¬ (relabel_one 1 [1] [0] = Some 0 ↔ 1 ∉ [1]).
Proof.
  split; [reflexivity|]. intros [Hiff _].
  apply Hiff; [reflexivity|]. apply list_elem_of_here.
Qed.

(** * Totality and concrete evaluations *)

(** On a structure matrix of dimension [d >= 1] no derivation faults
    (for [get_needed_hfunc1], [get_max_matrix] and [in_natural_order]
    this holds from [d = 0] on). *)
Lemma derivations_total d M :
  structure_matrix d M →
  is_Some (in_natural_order (RVineMatrix_new M))
  ∧ is_Some (get_max_matrix (RVineMatrix_new M))
  ∧ is_Some (get_needed_hfunc1 (RVineMatrix_new M))
  ∧ (1 ≤ d → is_Some (get_needed_hfunc2 (RVineMatrix_new M))).
Proof.
  intros HM%structure_matrix_repr.
  destruct (in_natural_order_repr d M _ HM) as (N & -> & _).
  destruct (get_max_matrix_repr d M _ HM) as (MX & -> & _).
  destruct (get_needed_hfunc1_repr d M _ HM) as (H1 & -> & _).
  split_and!; try done. intros Hd.
  by destruct (get_needed_hfunc2_repr d M _ HM Hd) as (H2 & -> & _).
Qed.

(** The first block assignment of [get_needed_hfunc2] has [-1] rows on
    the empty matrix. *)
Example get_needed_hfunc2_empty :
  get_needed_hfunc2 (RVineMatrix_new (of_rows [])) = None.
Proof. reflexivity. Qed.

Example in_natural_order_312 :
  in_natural_order (RVineMatrix_new matrix_312)
  = Some (of_rows [[2; 3; 1]; [3; 2; 0]; [3; 0; 0]]).
Proof. reflexivity. Qed.

Example in_natural_order_d_vine_1234 :
  in_natural_order (RVineMatrix_new d_vine_1234) = Some d_vine_1234.
Proof. reflexivity. Qed.

Example get_max_matrix_d_vine_1234 :
  get_max_matrix (RVineMatrix_new d_vine_1234)
  = Some (of_rows [[3; 2; 1; 1]; [3; 2; 2; 0]; [3; 3; 0; 0]; [4; 0; 0; 0]]).
Proof. reflexivity. Qed.

Example get_needed_hfunc1_d_vine_1234 :
  get_needed_hfunc1 (RVineMatrix_new d_vine_1234)
  = Some (of_rows [[false; false; false; false];
                   [false; true; true; false];
                   [false; true; false; false];
                   [false; false; false; false]]).
Proof. reflexivity. Qed.

Example get_needed_hfunc2_d_vine_1234 :
  get_needed_hfunc2 (RVineMatrix_new d_vine_1234)
  = Some (of_rows [[true; true; true; false];
                   [true; true; false; false];
                   [true; false; false; false];
                   [false; false; false; false]]).
Proof. reflexivity. Qed.

Example get_order_d_vine_1234 :
  get_order (RVineMatrix_new d_vine_1234) = Some [1; 2; 3; 4].
Proof. reflexivity. Qed.

(** * Further properties: accessors and construction *)

(** [get_order] returns the [d] labels of the cells [(k, d-1-k)], the cell
    of the top row first: the [k]-th entry of the result is the diagonal
    cell of row [k]. *)
Theorem get_order_cells d M :
  structure_matrix d M →
  ∃ v, get_order (RVineMatrix_new M) = Some v
    ∧ size v = d
    ∧ ∀ k, 0 ≤ k < d →
        is_Some (vcoeff v k) ∧ vcoeff v k = coeff M k (d - 1 - k).
Proof.
  intros HM%structure_matrix_repr.
  pose proof HM as (_ & _ & _ & Hf).
  destruct (repr_nonneg _ _ _ _ HM) as [Hd _].
  rewrite (get_order_repr _ _ _ HM). eexists. split; [done|]. split.
  - unfold size. rewrite length_fmap, length_seqZ. lia.
  - intros k Hk. rewrite Hf by lia. unfold vcoeff. case_decide; [|lia].
    rewrite list_lookup_fmap, lookup_seqZ_lt by lia. simpl.
    rewrite Z.add_0_l, Z2Nat.id by lia. done.
Qed.

Lemma get_order_cells_witness :
  structure_matrix 3 matrix_312
  ∧ ∃ v, get_order (RVineMatrix_new matrix_312) = Some v
      ∧ size v = 3
      ∧ ∀ k, 0 ≤ k < 3 →
          is_Some (vcoeff v k) ∧ vcoeff v k = coeff matrix_312 k (3 - 1 - k).
Proof.
  split; [exact structure_matrix_312|].
  apply (get_order_cells 3 matrix_312 structure_matrix_312).
Defined.

(** * Further properties: [relabel_one] *)

Lemma relabel_one_from_first x old new n : ∀ i k : nat,
  (i + n)%nat = length old → (i ≤ k)%nat →
  old !! k = Some x →
  (∀ k' : nat, (i ≤ k' < k)%nat → old !! k' ≠ Some x) →
  relabel_one_from n (Z.of_nat i) x old new = new !! k.
Proof.
  induction n as [|n IH]; intros i k Hn Hik Hk Hfirst.
  - apply lookup_lt_Some in Hk. lia.
  - simpl. rewrite !vcoeff_lookup.
    destruct (lookup_lt_is_Some_2 old i) as [o Ho]; [lia|].
    rewrite Ho. simpl. case_decide as Hd.
    + subst o. destruct (decide (i = k)) as [->|Hne]; [done|].
      destruct (Hfirst i); [lia|done].
    + replace (Z.of_nat i + 1) with (Z.of_nat (S i)) by lia.
      apply IH; [lia| |done|].
      * destruct (decide (i = k)) as [->|Hne]; [congruence|lia].
      * intros k' Hk'. apply Hfirst. lia.
Qed.

Lemma relabel_one_from_absent x old new n : ∀ i : nat,
  (i + n)%nat = length old →
  (∀ k' : nat, (i ≤ k')%nat → old !! k' ≠ Some x) →
  relabel_one_from n (Z.of_nat i) x old new = Some 0.
Proof.
  induction n as [|n IH]; intros i Hn Habsent; [done|].
  simpl. rewrite !vcoeff_lookup.
  destruct (lookup_lt_is_Some_2 old i) as [o Ho]; [lia|].
  rewrite Ho. simpl. case_decide as Hd.
  - subst o. destruct (Habsent i); [lia|done].
  - replace (Z.of_nat i + 1) with (Z.of_nat (S i)) by lia.
    apply IH; [lia|]. intros k' Hk'. apply Habsent. lia.
Qed.

(** Whatever the lengths of the two vectors, [relabel_one] reads
    [new_labels] at the first position of [x] in [old_labels]. *)
Lemma relabel_one_at_first x old new (k : nat) :
  old !! k = Some x →
  (∀ k' : nat, (k' < k)%nat → old !! k' ≠ Some x) →
  relabel_one x old new = new !! k.
Proof.
  intros Hk Hfirst. unfold relabel_one, size. rewrite Nat2Z.id.
  apply (relabel_one_from_first x old new (length old) O k);
    [lia|lia|done|].
  intros k' Hk'. apply Hfirst. lia.
Qed.

Lemma relabel_one_absent x old new :
  x ∉ old → relabel_one x old new = Some 0.
Proof.
  intros Hx. unfold relabel_one, size. rewrite Nat2Z.id.
  apply (relabel_one_from_absent x old new (length old) O); [lia|].
  intros k' _ Hk'. apply Hx. by eapply list_elem_of_lookup_2.
Qed.

(** [relabel_one] reads [new_labels] out of range exactly when the first
    position of [x] in [old_labels] lies beyond the end of [new_labels];
    for such vectors the vectors' lengths differ. *)
Theorem relabel_one_fault x old_labels new_labels :
  relabel_one x old_labels new_labels = None
  ↔ ∃ k, vcoeff old_labels k = Some x
      ∧ (∀ k', 0 ≤ k' < k → vcoeff old_labels k' ≠ Some x)
      ∧ size new_labels ≤ k.
Proof.
  split.
  - intros Hfault. destruct (decide (x ∈ old_labels)) as [Hin|Hnotin].
    + destruct (first_occurrence x old_labels Hin) as (k & Hk & Hfirst).
      rewrite (relabel_one_at_first x _ _ k Hk Hfirst) in Hfault.
      apply lookup_ge_None in Hfault.
      exists (Z.of_nat k). rewrite vcoeff_lookup. split; [done|]. split.
      * intros k' Hk'. replace k' with (Z.of_nat (Z.to_nat k')) by lia.
        rewrite vcoeff_lookup. apply Hfirst. lia.
      * unfold size. lia.
    + by rewrite relabel_one_absent in Hfault.
  - intros (k & Hk & Hfirst & Hlen).
    pose proof (vcoeff_Some_range _ _ _ Hk) as Hrange.
    rewrite (relabel_one_at_first x _ _ (Z.to_nat k)).
    + apply lookup_ge_None. unfold size in Hlen. lia.
    + unfold vcoeff in Hk. by case_decide.
    + intros k' Hk'. rewrite <- vcoeff_lookup. apply Hfirst. lia.
Qed.

(** [relabel_one] never invents a label: a result is an entry of
    [new_labels] or the sentinel 0. *)
Theorem relabel_one_range x old_labels new_labels y :
  relabel_one x old_labels new_labels = Some y →
  y = 0 ∨ y ∈ new_labels.
Proof.
  intros Hy. destruct (decide (x ∈ old_labels)) as [Hin|Hnotin].
  - destruct (first_occurrence x old_labels Hin) as (k & Hk & Hfirst).
    rewrite (relabel_one_at_first x _ _ k Hk Hfirst) in Hy.
    right. by eapply list_elem_of_lookup_2.
  - rewrite relabel_one_absent in Hy by done. left. congruence.
Qed.

Lemma relabel_one_range_witness :
  relabel_one 1 [3; 1; 2] [3; 2; 1] = Some 2 ∧ (2 = 0 ∨ 2 ∈ [3; 2; 1]).
Proof.
  split; [reflexivity|].
  apply (relabel_one_range 1 [3; 1; 2] [3; 2; 1] 2). reflexivity.
Defined.

(** * Further properties: [relabel_elements] *)

(** [relabel_elements] reads the old labels off the diagonal (cell
    [(d-1-k, k)] for position [k]), replaces every cell of the triangle
    [i + j < d] by its [relabel_one] image and leaves zero elsewhere; with
    at least [d] new labels it does not fault. *)
Theorem relabel_elements_cells d M new_labels :
  structure_matrix d M →
  d ≤ size new_labels →
  ∃ old_labels N,
    diagonal (colwise_reverse M) = Some old_labels
    ∧ size old_labels = d
    ∧ (∀ k, 0 ≤ k < d → vcoeff old_labels k = coeff M (d - 1 - k) k)
    ∧ relabel_elements M new_labels = Some N
    ∧ structure_matrix d N
    ∧ (∀ i j, 0 ≤ i → 0 ≤ j → i + j < d →
         ∃ x y, coeff M i j = Some x
           ∧ relabel_one x old_labels new_labels = Some y
           ∧ coeff N i j = Some y)
    ∧ (∀ i j, 0 ≤ i < d → 0 ≤ j < d → d ≤ i + j → coeff N i j = Some 0).
Proof.
  intros HM%structure_matrix_repr Hnew.
  pose proof HM as (_ & _ & _ & Hf).
  destruct (repr_nonneg _ _ _ _ HM) as [Hd _].
  destruct (relabel_elements_repr M d _ new_labels HM Hnew)
    as (N & HN & HNr).
  pose proof HNr as (_ & _ & _ & HNf).
  exists (diagonal_labels d (coeff_or 0 M)), N. split_and!.
  - by apply old_labels_repr.
  - by apply diagonal_labels_length.
  - intros k Hk. rewrite Hf by lia.
    replace k with (Z.of_nat (Z.to_nat k)) at 1 by lia.
    rewrite vcoeff_lookup, diagonal_labels_lookup by lia.
    do 2 f_equal; lia.
  - done.
  - by eapply repr_structure_matrix.
  - intros i j Hi Hj Hij. eexists _, _. split; [apply Hf; lia|].
    rewrite HNf by lia. split; [|done].
    rewrite relabel_one_scan by (rewrite diagonal_labels_length; lia).
    unfold relabelled. by rewrite decide_True by lia.
  - intros i j Hi Hj Hij. rewrite HNf by lia. unfold relabelled.
    by rewrite decide_False by lia.
Qed.

Lemma relabel_elements_cells_witness :
  structure_matrix 3 matrix_312 ∧ 3 ≤ size [30; 20; 10]
  ∧ ∃ N, relabel_elements matrix_312 [30; 20; 10] = Some N
      ∧ structure_matrix 3 N
      ∧ coeff N 1 2 = Some 0.
Proof.
  split; [exact structure_matrix_312|]. split; [done|].
  destruct (relabel_elements_cells 3 matrix_312 [30; 20; 10]
              structure_matrix_312 ltac:(done))
    as (old & N & _ & _ & _ & HN & HNs & _ & Hzero).
  exists N. split; [exact HN|]. split; [exact HNs|].
  apply Hzero; lia.
Defined.

Lemma for_loop_ext {S} (body1 body2 : Z → S → option S) n : ∀ lo s,
  (∀ i s, lo ≤ i < lo + Z.of_nat n → body1 i s = body2 i s) →
  for_loop n lo body1 s = for_loop n lo body2 s.
Proof.
  induction n as [|n IH]; intros lo s Hbody; [done|]. simpl.
  rewrite Hbody by lia. destruct (body2 lo s) as [s'|]; [|done]. simpl.
  apply IH. intros i s0 Hi. apply Hbody. lia.
Qed.

Lemma for_range_ext {S} (body1 body2 : Z → S → option S) lo hi s :
  (∀ i s, lo ≤ i < hi → body1 i s = body2 i s) →
  for_range lo hi body1 s = for_range lo hi body2 s.
Proof.
  intros Hbody. apply for_loop_ext. intros i s0 Hi. apply Hbody. lia.
Qed.

Lemma relabel_elements_agree d M M' new_labels :
  structure_matrix d M →
  structure_matrix d M' →
  (∀ i j, 0 ≤ i → 0 ≤ j → i + j < d → coeff M i j = coeff M' i j) →
  relabel_elements M new_labels = relabel_elements M' new_labels.
Proof.
  intros HM%structure_matrix_repr HM'%structure_matrix_repr Hagree.
  destruct (repr_nonneg _ _ _ _ HM) as [Hd _].
  unfold relabel_elements.
  rewrite (old_labels_repr _ _ _ HM), (old_labels_repr _ _ _ HM').
  destruct HM as (_ & -> & _), HM' as (_ & -> & _).
  assert (diagonal_labels d (coeff_or 0 M)
          = diagonal_labels d (coeff_or 0 M')) as ->.
  { apply list_fmap_ext. intros i k Hk%lookup_seqZ.
    unfold coeff_or. by rewrite Hagree by lia. }
  simpl. apply for_range_ext. intros i nm Hi.
  apply for_range_ext. intros j nm' Hj. by rewrite Hagree by lia.
Qed.

(** The cells to the right of the diagonal are never read: two
    [d]-by-[d] matrices that agree on the triangle [i + j < d] give the
    same result (or the same fault) in [relabel_elements], with any new
    labels, and have the same natural-order matrix, maximum matrix and
    needed-hfunc masks. *)
Theorem derivations_triangle d M M' :
  structure_matrix d M →
  structure_matrix d M' →
  (∀ i j, 0 ≤ i → 0 ≤ j → i + j < d → coeff M i j = coeff M' i j) →
  (∀ new_labels,
     relabel_elements M new_labels = relabel_elements M' new_labels)
  ∧ in_natural_order (RVineMatrix_new M)
    = in_natural_order (RVineMatrix_new M')
  ∧ get_max_matrix (RVineMatrix_new M) = get_max_matrix (RVineMatrix_new M')
  ∧ get_needed_hfunc1 (RVineMatrix_new M)
    = get_needed_hfunc1 (RVineMatrix_new M')
  ∧ get_needed_hfunc2 (RVineMatrix_new M)
    = get_needed_hfunc2 (RVineMatrix_new M').
Proof.
  intros HM HM' Hagree.
  assert (in_natural_order (RVineMatrix_new M)
          = in_natural_order (RVineMatrix_new M')) as HN.
  { unfold in_natural_order, RVineMatrix_new. simpl.
    destruct HM as (? & Hr & ?), HM' as (? & Hr' & ?). rewrite Hr, Hr'.
    by apply (relabel_elements_agree d); [split_and!..|]. }
  assert (get_max_matrix (RVineMatrix_new M)
          = get_max_matrix (RVineMatrix_new M')) as HMX.
  { unfold get_max_matrix. rewrite HN. simpl.
    destruct HM as (_ & -> & _), HM' as (_ & -> & _). done. }
  split_and!; try done.
  - intros new_labels. by apply (relabel_elements_agree d).
  - unfold get_needed_hfunc1. rewrite HN, HMX. simpl.
    destruct HM as (_ & -> & _), HM' as (_ & -> & _). done.
  - unfold get_needed_hfunc2. rewrite HN, HMX. simpl.
    destruct HM as (_ & -> & _), HM' as (_ & -> & _). done.
Qed.

Lemma derivations_triangle_witness :
  relabel_elements matrix_312 [30; 20; 10]
  = relabel_elements (of_rows [[1; 3; 2]; [3; 1; 7]; [3; 8; 9]]) [30; 20; 10]
  ∧ get_needed_hfunc2 (RVineMatrix_new matrix_312)
    = get_needed_hfunc2
        (RVineMatrix_new (of_rows [[1; 3; 2]; [3; 1; 7]; [3; 8; 9]])).
Proof.
  destruct (derivations_triangle 3 matrix_312
              (of_rows [[1; 3; 2]; [3; 1; 7]; [3; 8; 9]]))
    as (Hrel & _ & _ & _ & Hh2).
  - exact structure_matrix_312.
  - solve_structure_matrix.
  - intros i j Hi Hj Hij.
    assert (i = 0 ∨ i = 1 ∨ i = 2) as [->|[->| ->]] by lia;
      assert (j = 0 ∨ j = 1 ∨ j = 2) as [->|[->| ->]] by lia;
      (reflexivity || lia).
  - split; [apply Hrel|exact Hh2].
Defined.

Lemma relabel_scan_inj x y old new :
  NoDup new → (length old ≤ length new)%nat →
  x ∈ old → y ∈ old →
  relabel_scan x old new = relabel_scan y old new → x = y.
Proof.
  intros Hnd Hlen (kx & Hkx & Hfx)%first_occurrence
    (ky & Hky & Hfy)%first_occurrence.
  destruct (lookup_lt_is_Some_2 new kx) as [nx Hnx].
  { apply lookup_lt_Some in Hkx. lia. }
  destruct (lookup_lt_is_Some_2 new ky) as [ny Hny].
  { apply lookup_lt_Some in Hky. lia. }
  rewrite (relabel_scan_first x old new kx nx),
    (relabel_scan_first y old new ky ny) by done.
  intros ->. pose proof (NoDup_lookup _ _ _ _ Hnd Hnx Hny) as ->. congruence.
Qed.

Lemma relabel_scan_inverse x old new :
  NoDup new → length old = length new → x ∈ old →
  relabel_scan (relabel_scan x old new) new old = x.
Proof.
  intros Hnd Hlen (k & Hk & Hfirst)%first_occurrence.
  destruct (lookup_lt_is_Some_2 new k) as [y Hy].
  { apply lookup_lt_Some in Hk. lia. }
  rewrite (relabel_scan_first x old new k y) by done.
  apply (relabel_scan_first y new old k); [done| |done].
  intros k' Hk' Hy'. pose proof (NoDup_lookup _ _ _ _ Hnd Hy Hy'). lia.
Qed.

Lemma relabel_scan_same x l : NoDup l → x ∈ l → relabel_scan x l l = x.
Proof.
  intros Hnd (k & Hk)%list_elem_of_lookup_1.
  apply (relabel_scan_first x l l k); [done| |done].
  intros k' Hk' Hx. pose proof (NoDup_lookup _ _ _ _ Hnd Hk Hx). lia.
Qed.

Lemma relabel_scan_zero x old new :
  0 ∉ new → (length old ≤ length new)%nat →
  relabel_scan x old new = 0 ↔ x ∉ old.
Proof.
  intros H0 Hlen. split; [|apply relabel_scan_notin].
  intros Hzero Hin. apply H0. rewrite <- Hzero. by apply relabel_scan_in.
Qed.

Lemma elem_of_diagonal_labels d f x :
  x ∈ diagonal_labels d f ↔ ∃ k, 0 ≤ k < d ∧ f (d - 1 - k) k = x.
Proof.
  unfold diagonal_labels. rewrite list_elem_of_fmap. split.
  - intros (k & -> & Hk%elem_of_seqZ). exists k. split; [lia|done].
  - intros (k & Hk & <-). exists k. split; [done|].
    apply elem_of_seqZ. lia.
Qed.

Lemma natural_labels_elem_of d y : y ∈ natural_labels d ↔ 1 ≤ y ≤ d.
Proof.
  unfold natural_labels, stl_tools.reverse, stl_tools.seq_int.
  rewrite elem_of_reverse, elem_of_seqZ. lia.
Qed.

Lemma natural_labels_length d : 0 ≤ d → length (natural_labels d) = Z.to_nat d.
Proof. intros Hd. pose proof (natural_labels_size d Hd). unfold size in *. lia. Qed.

Lemma diagonal_labels_length_nat d f :
  0 ≤ d → length (diagonal_labels d f) = Z.to_nat d.
Proof.
  intros Hd. pose proof (diagonal_labels_length d f Hd). unfold size in *. lia.
Qed.

(** * Further properties: [in_natural_order] *)

(** Every entry of the natural-order matrix lies in [0..d].  Inside the
    triangle an entry is 0 exactly when the original label is not on the
    diagonal; outside the triangle it is always 0. *)
Theorem in_natural_order_labels d M :
  structure_matrix d M →
  ∃ N, in_natural_order (RVineMatrix_new M) = Some N
    ∧ structure_matrix d N
    ∧ (∀ i j, 0 ≤ i < d → 0 ≤ j < d →
         ∃ y, coeff N i j = Some y ∧ 0 ≤ y ≤ d)
    ∧ (∀ i j, 0 ≤ i → 0 ≤ j → i + j < d →
         coeff N i j = Some 0
         ↔ ¬ ∃ k, 0 ≤ k < d ∧ coeff M (d - 1 - k) k = coeff M i j)
    ∧ (∀ i j, 0 ≤ i < d → 0 ≤ j < d → d ≤ i + j → coeff N i j = Some 0).
Proof.
  intros HM%structure_matrix_repr.
  pose proof HM as (_ & _ & _ & Hf).
  destruct (repr_nonneg _ _ _ _ HM) as [Hd _].
  destruct (in_natural_order_repr d M _ HM) as (N & HN & HNr).
  pose proof HNr as (_ & _ & _ & HNf).
  set (old := diagonal_labels d (coeff_or 0 M)).
  assert (length old ≤ length (natural_labels d))%nat as Hlen.
  { unfold old.
    rewrite diagonal_labels_length_nat, natural_labels_length by done. lia. }
  subst old.
  exists N. split_and!; try done.
  - by eapply repr_structure_matrix.
  - intros i j Hi Hj. eexists. split; [by apply HNf|].
    unfold relabelled. case_decide; [|lia].
    destruct (decide (coeff_or 0 M i j ∈ diagonal_labels d (coeff_or 0 M)))
      as [Hin|Hnotin].
    + pose proof (relabel_scan_in _ _ (natural_labels d) Hlen Hin) as Hy.
      apply natural_labels_elem_of in Hy. lia.
    + rewrite relabel_scan_notin by done. lia.
  - intros i j Hi Hj Hij. rewrite HNf by lia. unfold relabelled.
    rewrite decide_True by lia.
    assert (∀ y, Some y = Some 0 ↔ y = 0) as -> by (intros; naive_solver).
    rewrite relabel_scan_zero by (done || apply natural_labels_nonzero).
    rewrite elem_of_diagonal_labels. apply not_iff_compat.
    split; intros (k & Hk & Heq); exists k; (split; [done|]).
    + rewrite !Hf by lia. by f_equal.
    + rewrite !Hf in Heq by lia. by injection Heq.
  - intros i j Hi Hj Hij. rewrite HNf by lia. unfold relabelled.
    by rewrite decide_False by lia.
Qed.

Lemma in_natural_order_labels_witness :
  structure_matrix 3 matrix_312
  ∧ ∃ N, in_natural_order (RVineMatrix_new matrix_312) = Some N
      ∧ structure_matrix 3 N
      ∧ (∀ i j, 0 ≤ i < 3 → 0 ≤ j < 3 →
           ∃ y, coeff N i j = Some y ∧ 0 ≤ y ≤ 3).
Proof.
  split; [exact structure_matrix_312|].
  destruct (in_natural_order_labels 3 matrix_312 structure_matrix_312)
    as (N & HN & HNs & Hrange & _).
  exists N. split; [exact HN|]. split; [exact HNs|exact Hrange].
Defined.

(** [in_natural_order] renames consistently: two cells of the triangle
    whose labels occur on the diagonal get the same new label exactly
    when they held the same label. *)
Theorem in_natural_order_equal_labels d M :
  structure_matrix d M →
  ∃ N, in_natural_order (RVineMatrix_new M) = Some N
    ∧ ∀ i j i' j',
        0 ≤ i → 0 ≤ j → i + j < d → 0 ≤ i' → 0 ≤ j' → i' + j' < d →
        (∃ k, 0 ≤ k < d ∧ coeff M (d - 1 - k) k = coeff M i j) →
        (∃ k, 0 ≤ k < d ∧ coeff M (d - 1 - k) k = coeff M i' j') →
        (coeff N i j = coeff N i' j' ↔ coeff M i j = coeff M i' j').
Proof.
  intros HM%structure_matrix_repr.
  pose proof HM as (_ & _ & _ & Hf).
  destruct (repr_nonneg _ _ _ _ HM) as [Hd _].
  destruct (in_natural_order_repr d M _ HM) as (N & HN & HNr).
  pose proof HNr as (_ & _ & _ & HNf).
  exists N. split; [done|].
  intros i j i' j' Hi Hj Hij Hi' Hj' Hij' (k & Hk & Hdk) (k' & Hk' & Hdk').
  rewrite !HNf, !Hf by lia. rewrite !Hf in Hdk, Hdk' by lia.
  injection Hdk as Hdk. injection Hdk' as Hdk'.
  unfold relabelled. rewrite !decide_True by lia.
  split; [|by intros [= ->]]. intros [= Heq]. f_equal.
  eapply relabel_scan_inj; [apply natural_labels_NoDup| | | |exact Heq].
  - rewrite diagonal_labels_length_nat, natural_labels_length by done. lia.
  - apply elem_of_diagonal_labels. by exists k.
  - apply elem_of_diagonal_labels. by exists k'.
Qed.

Lemma in_natural_order_equal_labels_witness :
  structure_matrix 3 matrix_312
  ∧ ∃ N, in_natural_order (RVineMatrix_new matrix_312) = Some N
      ∧ (coeff N 0 1 = coeff N 1 0
         ↔ coeff matrix_312 0 1 = coeff matrix_312 1 0).
Proof.
  split; [exact structure_matrix_312|].
  destruct (in_natural_order_equal_labels 3 matrix_312 structure_matrix_312)
    as (N & HN & Heq).
  exists N. split; [exact HN|].
  apply Heq; try lia; exists 0; (split; [lia|reflexivity]).
Defined.

(** A matrix already in natural order is a fixed point: when the diagonal
    reads [(d, ..., 1)] from the bottom row upward, the labels of the
    triangle lie in [1..d] and the cells outside the triangle are 0,
    [in_natural_order] returns the stored matrix. *)
Theorem in_natural_order_fixed_point d M :
  structure_matrix d M →
  (∀ k, 0 ≤ k < d → coeff M (d - 1 - k) k = Some (d - k)) →
  (∀ i j, 0 ≤ i → 0 ≤ j → i + j < d →
     ∃ x, coeff M i j = Some x ∧ 1 ≤ x ≤ d) →
  (∀ i j, 0 ≤ i < d → 0 ≤ j < d → d ≤ i + j → coeff M i j = Some 0) →
  in_natural_order (RVineMatrix_new M) = Some M.
Proof.
  intros HM%structure_matrix_repr Hdiag Htri Hout.
  pose proof HM as (_ & _ & _ & Hf).
  destruct (repr_nonneg _ _ _ _ HM) as [Hd _].
  destruct (in_natural_order_repr d M _ HM) as (N & HN & HNr).
  rewrite HN. f_equal. apply (repr_inj N M d d _ HNr).
  eapply repr_ext; [exact HM|]. intros i j Hi Hj. unfold relabelled.
  case_decide as Hij.
  - assert (diagonal_labels d (coeff_or 0 M) = natural_labels d) as ->.
    { apply list_eq_same_length with (Z.to_nat d).
      - by apply natural_labels_length.
      - by apply diagonal_labels_length_nat.
      - intros k x y Hk Hx Hy.
        rewrite diagonal_labels_lookup in Hx by lia.
        rewrite natural_labels_lookup in Hy by lia.
        pose proof (Hdiag (Z.of_nat k) ltac:(lia)) as Hdk.
        rewrite Hf in Hdk by lia. congruence. }
    symmetry. apply relabel_scan_same; [apply natural_labels_NoDup|].
    apply natural_labels_elem_of.
    destruct (Htri i j) as (x & Hx & Hrange); [lia..|].
    rewrite Hf in Hx by lia. injection Hx as ->. done.
  - pose proof (Hout i j Hi Hj ltac:(lia)) as Hz.
    rewrite Hf in Hz by lia. by injection Hz.
Qed.

Lemma in_natural_order_fixed_point_witness :
  in_natural_order (RVineMatrix_new d_vine_1234) = Some d_vine_1234.
Proof.
  apply (in_natural_order_fixed_point 4).
  - exact structure_matrix_d_vine_1234.
  - intros k Hk.
    assert (k = 0 ∨ k = 1 ∨ k = 2 ∨ k = 3) as [->|[->|[->| ->]]] by lia;
      reflexivity.
  - intros i j Hi Hj Hij.
    assert (i = 0 ∨ i = 1 ∨ i = 2 ∨ i = 3) as [->|[->|[->| ->]]] by lia;
      assert (j = 0 ∨ j = 1 ∨ j = 2 ∨ j = 3) as [->|[->|[->| ->]]] by lia;
      try lia; eexists; (split; [reflexivity|lia]).
  - intros i j Hi Hj Hij.
    assert (i = 0 ∨ i = 1 ∨ i = 2 ∨ i = 3) as [->|[->|[->| ->]]] by lia;
      assert (j = 0 ∨ j = 1 ∨ j = 2 ∨ j = 3) as [->|[->|[->| ->]]] by lia;
      (reflexivity || lia).
Defined.

(** Relabelling is undone by relabelling back: with pairwise distinct
    diagonal labels, triangle entries that all occur on the diagonal and
    [d] pairwise distinct new labels, the relabelled matrix has the new
    labels on its diagonal, and relabelling it with the old diagonal
    restores every cell of the triangle. *)
Theorem relabel_elements_round_trip d M new_labels :
  structure_matrix d M →
  size new_labels = d →
  NoDup new_labels →
  (∀ k k', 0 ≤ k < d → 0 ≤ k' < d →
     coeff M (d - 1 - k) k = coeff M (d - 1 - k') k' → k = k') →
  (∀ i j, 0 ≤ i → 0 ≤ j → i + j < d →
     ∃ k, 0 ≤ k < d ∧ coeff M (d - 1 - k) k = coeff M i j) →
  ∃ old_labels N M',
    diagonal (colwise_reverse M) = Some old_labels
    ∧ relabel_elements M new_labels = Some N
    ∧ diagonal (colwise_reverse N) = Some new_labels
    ∧ relabel_elements N old_labels = Some M'
    ∧ ∀ i j, 0 ≤ i → 0 ≤ j → i + j < d →
        is_Some (coeff M' i j) ∧ coeff M' i j = coeff M i j.
Proof.
  intros HM%structure_matrix_repr Hsize Hnd Hdistinct Htri.
  pose proof HM as (_ & _ & _ & Hf).
  destruct (repr_nonneg _ _ _ _ HM) as [Hd _].
  set (f := coeff_or 0 M) in *. set (old := diagonal_labels d f).
  pose proof (diagonal_labels_length_nat d f Hd) as Hlenold. fold old in Hlenold.
  assert (length new_labels = Z.to_nat d) as Hlennew
    by (unfold size in Hsize; lia).
  assert (∀ k : nat, Z.of_nat k < d →
    relabel_scan (f (d - 1 - Z.of_nat k) (Z.of_nat k)) old new_labels
    = default 0 (new_labels !! k)) as Hdiag.
  { intros k Hk.
    destruct (lookup_lt_is_Some_2 new_labels k) as [y Hy]; [lia|].
    rewrite Hy. simpl.
    apply (relabel_scan_first _ _ _ k); [| |done].
    - by apply diagonal_labels_lookup.
    - intros k' Hk'. unfold old. rewrite diagonal_labels_lookup by lia.
      intros [= Heq].
      assert (Z.of_nat k' = Z.of_nat k); [|lia].
      apply Hdistinct; [lia..|]. rewrite !Hf by lia. by f_equal. }
  destruct (relabel_elements_repr M d f new_labels HM) as (N & HN & HNr);
    [lia|].
  assert (diagonal_labels d (relabelled d f new_labels) = new_labels)
    as Hnewdiag.
  { apply list_eq_same_length with (Z.to_nat d);
      [done|by apply diagonal_labels_length_nat|].
    intros k x y Hk Hx Hy. rewrite diagonal_labels_lookup in Hx by lia.
    injection Hx as <-. unfold relabelled. rewrite decide_True by lia.
    fold old. rewrite Hdiag by lia. by rewrite Hy. }
  destruct (relabel_elements_repr N d _ old HNr) as (M' & HM' & HM'r).
  { unfold size. lia. }
  pose proof HM'r as (_ & _ & _ & HM'f).
  exists old, N, M'. split_and!; try done.
  - by apply old_labels_repr.
  - by rewrite (old_labels_repr _ _ _ HNr), Hnewdiag.
  - intros i j Hi Hj Hij. rewrite HM'f, Hf by lia. split; [done|]. f_equal.
    unfold relabelled at 1. rewrite decide_True, Hnewdiag by lia.
    unfold relabelled. rewrite decide_True by lia. fold old.
    apply relabel_scan_inverse; [done|lia|].
    apply elem_of_diagonal_labels.
    destruct (Htri i j Hi Hj Hij) as (k & Hk & Heq). exists k.
    split; [done|]. rewrite !Hf in Heq by lia. by injection Heq.
Qed.

Lemma relabel_elements_round_trip_witness :
  ∃ old_labels N M',
    diagonal (colwise_reverse matrix_312) = Some old_labels
    ∧ relabel_elements matrix_312 [30; 20; 10] = Some N
    ∧ diagonal (colwise_reverse N) = Some [30; 20; 10]
    ∧ relabel_elements N old_labels = Some M'
    ∧ ∀ i j, 0 ≤ i → 0 ≤ j → i + j < 3 →
        is_Some (coeff M' i j) ∧ coeff M' i j = coeff matrix_312 i j.
Proof.
  apply (relabel_elements_round_trip 3 matrix_312 [30; 20; 10]).
  - exact structure_matrix_312.
  - reflexivity.
  - repeat (apply NoDup_cons_2;
            [rewrite ?elem_of_cons, elem_of_nil; lia|]).
    apply NoDup_nil_2.
  - intros k k' Hk Hk'.
    assert (k = 0 ∨ k = 1 ∨ k = 2) as [->|[->| ->]] by lia;
      assert (k' = 0 ∨ k' = 1 ∨ k' = 2) as [->|[->| ->]] by lia;
      vm_compute; congruence.
  - intros i j Hi Hj Hij.
    assert (i = 0 ∨ i = 1 ∨ i = 2) as [->|[->| ->]] by lia;
      assert (j = 0 ∨ j = 1 ∨ j = 2) as [->|[->| ->]] by lia;
      try lia;
      first [ exists 0; split; [lia|reflexivity]
            | exists 1; split; [lia|reflexivity]
            | exists 2; split; [lia|reflexivity] ].
Defined.

Lemma in_natural_order_twice d M :
  structure_matrix d M →
  ∃ N, in_natural_order (RVineMatrix_new M) = Some N
    ∧ structure_matrix d N
    ∧ in_natural_order (RVineMatrix_new N) = Some N.
Proof.
  intros HM%structure_matrix_repr.
  destruct (in_natural_order_repr d M _ HM) as (N & HN & HNr).
  destruct (in_natural_order_repr d N _ HNr) as (N' & HN' & HN'r).
  destruct (repr_nonneg _ _ _ _ HNr) as [Hd _].
  exists N. split; [done|]. split; [by eapply repr_structure_matrix|].
  rewrite HN'. f_equal.
  apply (repr_inj N' N d d _ HN'r). eapply repr_ext; [exact HNr|].
  intros i j Hi Hj. symmetry. by apply relabelled_idem.
Qed.

(** The derived matrices of a structure matrix and of its natural-order
    form coincide: canonicalising first changes neither the maximum
    matrix nor the two masks. *)
Theorem derivations_of_natural_order d M :
  structure_matrix d M →
  ∃ N, in_natural_order (RVineMatrix_new M) = Some N
    ∧ get_max_matrix (RVineMatrix_new N) = get_max_matrix (RVineMatrix_new M)
    ∧ get_needed_hfunc1 (RVineMatrix_new N)
      = get_needed_hfunc1 (RVineMatrix_new M)
    ∧ get_needed_hfunc2 (RVineMatrix_new N)
      = get_needed_hfunc2 (RVineMatrix_new M).
Proof.
  intros HM.
  destruct (in_natural_order_twice d M HM) as (N & HN & HNs & HNN).
  assert (rows N = rows M) as Hrows.
  { destruct HM as (_ & -> & _), HNs as (_ & -> & _). done. }
  assert (get_max_matrix (RVineMatrix_new N)
          = get_max_matrix (RVineMatrix_new M)) as HMX.
  { unfold get_max_matrix. rewrite HN, HNN. simpl. by rewrite Hrows. }
  exists N. split_and!; try done.
  - unfold get_needed_hfunc1. rewrite HMX, HN, HNN. simpl. by rewrite Hrows.
  - unfold get_needed_hfunc2. rewrite HMX, HN, HNN. simpl. by rewrite Hrows.
Qed.

Lemma derivations_of_natural_order_witness :
  structure_matrix 3 matrix_312
  ∧ ∃ N, in_natural_order (RVineMatrix_new matrix_312) = Some N
      ∧ get_max_matrix (RVineMatrix_new N)
        = get_max_matrix (RVineMatrix_new matrix_312)
      ∧ get_needed_hfunc1 (RVineMatrix_new N)
        = get_needed_hfunc1 (RVineMatrix_new matrix_312)
      ∧ get_needed_hfunc2 (RVineMatrix_new N)
        = get_needed_hfunc2 (RVineMatrix_new matrix_312).
Proof.
  split; [exact structure_matrix_312|].
  apply (derivations_of_natural_order 3 matrix_312 structure_matrix_312).
Defined.

(** * Further properties: [get_max_matrix] *)

Lemma running_max_upper g j (n n' : nat) :
  (n' ≤ n)%nat → g (Z.of_nat n') j ≤ running_max g n j.
Proof.
  induction n as [|n IH]; intros Hle.
  - by replace n' with O by lia.
  - change (running_max g (S n) j)
      with (Z.max (running_max g n j) (g (Z.of_nat (S n)) j)).
    destruct (decide (n' = S n)) as [->|Hne]; [lia|].
    specialize (IH ltac:(lia)). lia.
Qed.

Lemma running_max_attained g j (n : nat) :
  ∃ n' : nat, (n' ≤ n)%nat ∧ running_max g n j = g (Z.of_nat n') j.
Proof.
  induction n as [|n (n' & Hle & IH)]; [by exists O|].
  change (running_max g (S n) j)
    with (Z.max (running_max g n j) (g (Z.of_nat (S n)) j)).
  destruct (Z.max_spec (running_max g n j) (g (Z.of_nat (S n)) j))
    as [[_ ->]|[_ ->]].
  - by exists (S n).
  - exists n'. split; [lia|done].
Qed.

(** Inside the triangle, the cell [(i, j)] of the maximum matrix is the
    largest natural-order entry of column [j] in rows [0..i]: it bounds
    all of them and is one of them.  Outside the triangle the maximum
    matrix is zero. *)
Theorem get_max_matrix_column_maximum d M :
  structure_matrix d M →
  ∃ N MX,
    in_natural_order (RVineMatrix_new M) = Some N
    ∧ get_max_matrix (RVineMatrix_new M) = Some MX
    ∧ structure_matrix d MX
    ∧ (∀ i j, 0 ≤ i → 0 ≤ j → i + j < d →
         ∃ m, coeff MX i j = Some m
           ∧ (∀ i', 0 ≤ i' ≤ i → ∃ x, coeff N i' j = Some x ∧ x ≤ m)
           ∧ (∃ i', 0 ≤ i' ≤ i ∧ coeff N i' j = Some m))
    ∧ (∀ i j, 0 ≤ i < d → 0 ≤ j < d → d ≤ i + j → coeff MX i j = Some 0).
Proof.
  intros HM%structure_matrix_repr.
  destruct (in_natural_order_repr d M _ HM) as (N & HN & (_ & _ & _ & HNf)).
  destruct (get_max_matrix_repr d M _ HM) as (MX & HMX & HMXr).
  pose proof HMXr as (_ & _ & _ & HMXf).
  exists N, MX. split_and!; try done.
  - by eapply repr_structure_matrix.
  - intros i j Hi Hj Hij. eexists. split; [apply HMXf; lia|].
    unfold max_cells. rewrite decide_True by lia. split.
    + intros i' Hi'. eexists. split; [apply HNf; lia|].
      replace i' with (Z.of_nat (Z.to_nat i')) at 1 by lia.
      apply running_max_upper. lia.
    + destruct (running_max_attained
                  (relabelled d (coeff_or 0 M) (natural_labels d))
                  j (Z.to_nat i)) as (n' & Hle & ->).
      exists (Z.of_nat n'). split; [lia|]. apply HNf; lia.
  - intros i j Hi Hj Hij. rewrite HMXf by lia. unfold max_cells.
    rewrite decide_False by lia. unfold relabelled.
    by rewrite decide_False by lia.
Qed.

Lemma get_max_matrix_column_maximum_witness :
  structure_matrix 4 d_vine_1234
  ∧ ∃ N MX,
      in_natural_order (RVineMatrix_new d_vine_1234) = Some N
      ∧ get_max_matrix (RVineMatrix_new d_vine_1234) = Some MX
      ∧ structure_matrix 4 MX
      ∧ (∀ i j, 0 ≤ i → 0 ≤ j → i + j < 4 →
           ∃ m, coeff MX i j = Some m
             ∧ (∀ i', 0 ≤ i' ≤ i → ∃ x, coeff N i' j = Some x ∧ x ≤ m)
             ∧ (∃ i', 0 ≤ i' ≤ i ∧ coeff N i' j = Some m))
      ∧ (∀ i j, 0 ≤ i < 4 → 0 ≤ j < 4 → 4 ≤ i + j →
           coeff MX i j = Some 0).
Proof.
  split; [exact structure_matrix_d_vine_1234|].
  apply (get_max_matrix_column_maximum 4 d_vine_1234
           structure_matrix_d_vine_1234).
Defined.

(** * Further properties: faults and shapes *)

(** On a [d]-by-[d] matrix with [d >= 1] none of the four derivations
    leaves the bounds of a matrix, and each returns a [d]-by-[d] matrix. *)
Theorem derivations_shape d M :
  structure_matrix d M →
  1 ≤ d →
  ∃ N MX (H1 H2 : Mat bool),
    in_natural_order (RVineMatrix_new M) = Some N
    ∧ get_max_matrix (RVineMatrix_new M) = Some MX
    ∧ get_needed_hfunc1 (RVineMatrix_new M) = Some H1
    ∧ get_needed_hfunc2 (RVineMatrix_new M) = Some H2
    ∧ structure_matrix d N ∧ structure_matrix d MX
    ∧ (wf H1 ∧ rows H1 = d ∧ cols H1 = d)
    ∧ (wf H2 ∧ rows H2 = d ∧ cols H2 = d).
Proof.
  intros HM%structure_matrix_repr Hd.
  destruct (in_natural_order_repr d M _ HM) as (N & HN & HNr).
  destruct (get_max_matrix_repr d M _ HM) as (MX & HMX & HMXr).
  destruct (get_needed_hfunc1_repr d M _ HM) as (H1 & HH1 & HH1r).
  destruct (get_needed_hfunc2_repr d M _ HM Hd) as (H2 & HH2 & HH2r).
  exists N, MX, H1, H2. split_and!; try done;
    try by eapply repr_structure_matrix.
  - apply HH1r.
  - apply HH1r.
  - apply HH1r.
  - apply HH2r.
  - apply HH2r.
  - apply HH2r.
Qed.

Lemma derivations_shape_witness :
  structure_matrix 1 (of_rows [[7]]) ∧ 1 ≤ 1
  ∧ ∃ N MX (H1 H2 : Mat bool),
      in_natural_order (RVineMatrix_new (of_rows [[7]])) = Some N
      ∧ get_max_matrix (RVineMatrix_new (of_rows [[7]])) = Some MX
      ∧ get_needed_hfunc1 (RVineMatrix_new (of_rows [[7]])) = Some H1
      ∧ get_needed_hfunc2 (RVineMatrix_new (of_rows [[7]])) = Some H2
      ∧ structure_matrix 1 N ∧ structure_matrix 1 MX
      ∧ (wf H1 ∧ rows H1 = 1 ∧ cols H1 = 1)
      ∧ (wf H2 ∧ rows H2 = 1 ∧ cols H2 = 1).
Proof.
  assert (structure_matrix 1 (of_rows [[7]])) as Hs
    by solve_structure_matrix.
  split; [exact Hs|]. split; [lia|].
  apply (derivations_shape 1 (of_rows [[7]]) Hs). lia.
Defined.

(** [get_needed_hfunc2] faults on a matrix without rows, whatever else it
    holds: its first statement assigns to a block of [d - 1 = -1] rows. *)
Theorem get_needed_hfunc2_no_rows (M : Mat Z) :
  rows M ≤ 0 → get_needed_hfunc2 (RVineMatrix_new M) = None.
Proof.
  intros Hrows. unfold get_needed_hfunc2, assign_block. simpl.
  by rewrite decide_False by lia.
Qed.

Lemma get_needed_hfunc2_no_rows_witness :
  rows (of_rows ([] : list (list Z))) ≤ 0
  ∧ get_needed_hfunc2 (RVineMatrix_new (of_rows [])) = None.
Proof.
  split; [done|]. by apply (get_needed_hfunc2_no_rows (of_rows [])).
Defined.

(** * Further properties: the derived matrices of a D-vine *)

Lemma vcoeff_seqZ d m : 0 ≤ m < d → vcoeff (seqZ 1 d) m = Some (1 + m).
Proof.
  intros Hm. unfold vcoeff. case_decide; [|lia].
  rewrite lookup_seqZ_lt by lia. f_equal. lia.
Qed.

Lemma size_seqZ d : 0 ≤ d → size (seqZ 1 d) = d.
Proof. intros Hd. unfold size. rewrite length_seqZ. lia. Qed.

(** The cells of the D-vine matrix of the order [1, ..., d]. *)
Lemma d_vine_cells_seqZ d i j :
  0 ≤ d → 0 ≤ i < d → 0 ≤ j < d →
  d_vine_cells (seqZ 1 d) i j
  = if decide (i + j < d - 1) then d - 1 - i - j
    else if decide (i + j = d - 1) then i + 1 else 0.
Proof.
  intros Hd Hi Hj. unfold d_vine_cells. rewrite size_seqZ by done.
  repeat case_decide; try lia; rewrite vcoeff_seqZ by lia; simpl; lia.
Qed.

Lemma vcoeff_default_inj order m m' :
  NoDup order → 0 ≤ m < size order → 0 ≤ m' < size order →
  default 0 (vcoeff order m) = default 0 (vcoeff order m') → m = m'.
Proof.
  intros Hnd Hm Hm' Heq.
  pose proof (vcoeff_default order m Hm) as Hx.
  pose proof (vcoeff_default order m' Hm') as Hy.
  rewrite <- Heq in Hy. unfold vcoeff in Hx, Hy.
  rewrite !decide_True in Hx by lia. rewrite !decide_True in Hy by lia.
  pose proof (NoDup_lookup _ _ _ _ Hnd Hx Hy). lia.
Qed.

(** Relabelling the D-vine matrix of a duplicate-free [order] to natural
    order gives, cell by cell, the D-vine matrix of [1, ..., d]. *)
Lemma d_vine_natural_cells order i j :
  NoDup order →
  0 ≤ i < size order → 0 ≤ j < size order →
  relabelled (size order) (d_vine_cells order) (natural_labels (size order))
    i j
  = d_vine_cells (seqZ 1 (size order)) i j.
Proof.
  intros Hnd Hi Hj. set (d := size order) in *.
  assert (0 ≤ d) as Hd by (unfold d, size; lia).
  assert (∀ r, 0 ≤ r < d →
    d_vine_cells order r (d - 1 - r) = default 0 (vcoeff order r)) as Hdg.
  { intros r Hr. unfold d_vine_cells. fold d. by rewrite decide_True by lia. }
  assert (∀ m, 0 ≤ m < d →
    relabel_scan (default 0 (vcoeff order m))
      (diagonal_labels d (d_vine_cells order)) (natural_labels d) = m + 1)
    as Hscan.
  { intros m Hm. apply (relabel_scan_first _ _ _ (Z.to_nat (d - 1 - m))).
    - rewrite diagonal_labels_lookup by lia. f_equal.
      rewrite Z2Nat.id by lia.
      replace (d - 1 - (d - 1 - m)) with m by lia. by apply Hdg.
    - intros k' Hk'. rewrite diagonal_labels_lookup by lia. intros [= Heq].
      replace (Z.of_nat k') with (d - 1 - (d - 1 - Z.of_nat k')) in Heq
        at 2 by lia.
      rewrite Hdg in Heq by lia.
      apply vcoeff_default_inj in Heq; [lia|done|fold d; lia..].
    - rewrite natural_labels_lookup by lia. f_equal. lia. }
  rewrite d_vine_cells_seqZ by done. unfold relabelled.
  destruct (decide (i + j < d - 1)) as [Hlt|Hge].
  - rewrite decide_True by lia.
    replace (d_vine_cells order i j)
      with (default 0 (vcoeff order (d - 2 - i - j))).
    + rewrite Hscan by lia. lia.
    + unfold d_vine_cells. fold d.
      by rewrite decide_False, decide_True by lia.
  - destruct (decide (i + j = d - 1)) as [Heq|Hne].
    + rewrite decide_True by lia.
      replace j with (d - 1 - i) at 1 by lia.
      rewrite Hdg, Hscan by lia. done.
    + by rewrite decide_False by lia.
Qed.

(** The natural-order form of a D-vine does not depend on the order of
    its variables: for every duplicate-free [order] of length [d],
    [in_natural_order] of [construct_d_vine_matrix order] is the matrix
    [construct_d_vine_matrix] builds for [1, ..., d]; its diagonal, read
    from the bottom row upward, was the reverse of [order]. *)
Theorem d_vine_in_natural_order order :
  NoDup order →
  ∃ M D,
    construct_d_vine_matrix order = Some M
    ∧ diagonal (colwise_reverse M) = Some (reverse order)
    ∧ construct_d_vine_matrix (seqZ 1 (size order)) = Some D
    ∧ in_natural_order (RVineMatrix_new M) = Some D.
Proof.
  intros Hnd. set (d := size order).
  assert (0 ≤ d) as Hd by (unfold d, size; lia).
  destruct (construct_d_vine_matrix_repr order) as (M & HM & HMr).
  destruct (construct_d_vine_matrix_repr (seqZ 1 d)) as (D & HD & HDr).
  rewrite size_seqZ in HDr by done. fold d in HMr.
  destruct (in_natural_order_repr d M _ HMr) as (N & HN & HNr).
  exists M, D. split_and!; try done.
  - rewrite (old_labels_repr _ _ _ HMr). f_equal.
    apply list_eq_same_length with (length order).
    + by rewrite length_reverse.
    + rewrite diagonal_labels_length_nat by done. unfold d, size. lia.
    + intros k x y Hk Hx Hy.
      rewrite diagonal_labels_lookup in Hx by (unfold d, size; lia).
      rewrite reverse_lookup in Hy by done.
      injection Hx as <-. unfold d_vine_cells. fold d.
      rewrite decide_True by lia. unfold vcoeff.
      rewrite decide_True by (unfold d, size; lia).
      replace (Z.to_nat (d - 1 - Z.of_nat k))
        with (length order - S k)%nat by (unfold d, size; lia).
      by rewrite Hy.
  - rewrite HN. f_equal. apply (repr_inj N D d d _ HNr).
    eapply repr_ext; [exact HDr|]. intros i j Hi Hj.
    symmetry. by apply d_vine_natural_cells.
Qed.

Lemma d_vine_in_natural_order_witness :
  NoDup [2; 4; 1; 3]
  ∧ ∃ M D,
      construct_d_vine_matrix [2; 4; 1; 3] = Some M
      ∧ diagonal (colwise_reverse M) = Some [3; 1; 4; 2]
      ∧ construct_d_vine_matrix [1; 2; 3; 4] = Some D
      ∧ in_natural_order (RVineMatrix_new M) = Some D.
Proof.
  assert (NoDup [2; 4; 1; 3]) as Hnd.
  { repeat (apply NoDup_cons_2;
            [rewrite ?elem_of_cons, elem_of_nil; lia|]).
    apply NoDup_nil_2. }
  split; [exact Hnd|]. apply (d_vine_in_natural_order [2; 4; 1; 3] Hnd).
Defined.

Lemma running_max_d_vine g d j (n : nat) :
  (∀ i, 0 ≤ i < d → g i j
     = if decide (i + j < d - 1) then d - 1 - i - j
       else if decide (i + j = d - 1) then i + 1 else 0) →
  0 ≤ j < d →
  (Z.of_nat n + j < d - 1 → running_max g n j = d - 1 - j)
  ∧ (Z.of_nat n + j = d - 1 → running_max g n j = d - j).
Proof.
  intros Hg Hj. induction n as [|n [IHlt IHeq]].
  - simpl. rewrite Hg by lia. split; intros Hn.
    + rewrite decide_True by lia. lia.
    + rewrite decide_False, decide_True by lia. lia.
  - change (running_max g (S n) j)
      with (Z.max (running_max g n j) (g (Z.of_nat (S n)) j)).
    split; intros Hn; rewrite IHlt, Hg by lia.
    + rewrite decide_True by lia. lia.
    + rewrite decide_False, decide_True by lia. lia.
Qed.

Lemma d_vine_max_cells order i j :
  NoDup order →
  0 ≤ i < size order → 0 ≤ j < size order →
  max_cells (size order)
    (relabelled (size order) (d_vine_cells order)
       (natural_labels (size order))) i j
  = if decide (i + j < size order - 1) then size order - 1 - j
    else if decide (i + j = size order - 1) then size order - j else 0.
Proof.
  intros Hnd Hi Hj. set (d := size order) in *.
  assert (0 ≤ d) as Hd by (unfold d, size; lia).
  set (g := relabelled d (d_vine_cells order) (natural_labels d)).
  assert (∀ r c, 0 ≤ r < d → 0 ≤ c < d →
    g r c = if decide (r + c < d - 1) then d - 1 - r - c
            else if decide (r + c = d - 1) then r + 1 else 0) as Hg.
  { intros r c Hr Hc. unfold g, d.
    rewrite d_vine_natural_cells by done. by apply d_vine_cells_seqZ. }
  unfold max_cells. case_decide as Hin.
  - destruct (running_max_d_vine g d j (Z.to_nat i)) as [Hlt Heq];
      [by intros r Hr; apply Hg|done|].
    destruct (decide (i + j < d - 1)) as [Hl|Hl]; [apply Hlt; lia|].
    rewrite decide_True by lia. apply Heq. lia.
  - rewrite Hg by done. repeat case_decide; lia.
Qed.

(** The maximum matrix of a D-vine: for a duplicate-free [order] of
    length [d], column [j] holds [d - 1 - j] above its diagonal cell,
    [d - j] on it, and 0 to the right of the diagonal. *)
Theorem d_vine_max_matrix order :
  NoDup order →
  ∃ M MX,
    construct_d_vine_matrix order = Some M
    ∧ get_max_matrix (RVineMatrix_new M) = Some MX
    ∧ ∀ i j, 0 ≤ i < size order → 0 ≤ j < size order →
        coeff MX i j
        = Some (if decide (i + j < size order - 1) then size order - 1 - j
                else if decide (i + j = size order - 1) then size order - j
                else 0).
Proof.
  intros Hnd.
  destruct (construct_d_vine_matrix_repr order) as (M & HM & HMr).
  destruct (get_max_matrix_repr _ M _ HMr) as (MX & HMX & (_ & _ & _ & HMXf)).
  exists M, MX. split; [done|]. split; [done|].
  intros i j Hi Hj. rewrite HMXf by done. f_equal.
  by apply d_vine_max_cells.
Qed.

Lemma d_vine_max_matrix_witness :
  NoDup [2; 4; 1; 3]
  ∧ ∃ M MX,
      construct_d_vine_matrix [2; 4; 1; 3] = Some M
      ∧ get_max_matrix (RVineMatrix_new M) = Some MX
      ∧ coeff MX 1 1 = Some 2 ∧ coeff MX 2 1 = Some 3.
Proof.
  assert (NoDup [2; 4; 1; 3]) as Hnd.
  { repeat (apply NoDup_cons_2;
            [rewrite ?elem_of_cons, elem_of_nil; lia|]).
    apply NoDup_nil_2. }
  split; [exact Hnd|].
  destruct (d_vine_max_matrix [2; 4; 1; 3] Hnd) as (M & MX & HM & HMX & Hc).
  exists M, MX. split; [exact HM|]. split; [exact HMX|].
  split; [apply (Hc 1 1)|apply (Hc 2 1)]; done.
Defined.

(** The masks of a D-vine: for a duplicate-free [order] of length
    [d >= 1], [get_needed_hfunc2] is true exactly at the cells with
    [r + c <= d - 2], and [get_needed_hfunc1] exactly at the cells with
    [r >= 1], [c >= 1] and [r + c <= d - 1]. *)
Theorem d_vine_needed_hfunc order :
  NoDup order →
  1 ≤ size order →
  ∃ M (H1 H2 : Mat bool),
    construct_d_vine_matrix order = Some M
    ∧ get_needed_hfunc1 (RVineMatrix_new M) = Some H1
    ∧ get_needed_hfunc2 (RVineMatrix_new M) = Some H2
    ∧ ∀ r c, 0 ≤ r < size order → 0 ≤ c < size order →
        coeff H1 r c
        = Some (bool_decide (1 ≤ r ∧ 1 ≤ c ∧ r + c ≤ size order - 1))
        ∧ coeff H2 r c = Some (bool_decide (r + c ≤ size order - 2)).
Proof.
  intros Hnd Hd1.
  destruct (construct_d_vine_matrix_repr order) as (M & HM & HMr).
  destruct (get_needed_hfunc1_repr _ M _ HMr) as (H1 & HH1 & (_ & _ & _ & H1f)).
  destruct (get_needed_hfunc2_repr _ M _ HMr Hd1)
    as (H2 & HH2 & (_ & _ & _ & H2f)).
  exists M, H1, H2. split; [done|]. split; [done|]. split; [done|].
  set (d := size order) in *.
  set (g := relabelled d (d_vine_cells order) (natural_labels d)) in *.
  assert (∀ r c, 0 ≤ r < d → 0 ≤ c < d →
    g r c = if decide (r + c < d - 1) then d - 1 - r - c
            else if decide (r + c = d - 1) then r + 1 else 0) as Hg.
  { intros r c Hr Hc. unfold g, d.
    rewrite d_vine_natural_cells by done. apply d_vine_cells_seqZ; lia. }
  assert (∀ r c, 0 ≤ r < d → 0 ≤ c < d →
    max_cells d g r c = if decide (r + c < d - 1) then d - 1 - c
                        else if decide (r + c = d - 1) then d - c else 0)
    as Hmx.
  { intros r c Hr Hc. by apply d_vine_max_cells. }
  intros r c Hr Hc. rewrite H1f, H2f by done. split; f_equal.
  - unfold hfunc1_cells. case_decide as Hin.
    + destruct (decide (1 ≤ r)) as [Hr1|Hr0].
      * rewrite bool_decide_eq_true_2 by lia.
        apply exists_below_true. exists (c - 1). split; [lia|].
        rewrite Hg, Hmx by lia. rewrite !decide_True by lia.
        apply andb_true_iff. split; apply bool_decide_eq_true; lia.
      * rewrite bool_decide_eq_false_2 by lia.
        apply not_true_is_false.
        intros (k & Hk & [Hn Hm]%andb_true_iff)%exists_below_true.
        apply bool_decide_eq_true in Hn, Hm.
        rewrite Hg in Hn by lia. rewrite Hmx in Hm by lia.
        rewrite !decide_True in Hn, Hm by lia. lia.
    + symmetry. apply bool_decide_eq_false. lia.
  - unfold hfunc2_cells. case_decide as Hc0.
    + apply bool_decide_ext. lia.
    + case_decide as Hc2; [|symmetry; apply bool_decide_eq_false; lia].
      case_decide as Hr1; [symmetry; apply bool_decide_eq_true; lia|].
      rewrite bool_decide_eq_false_2 by lia.
      case_decide as Hr2; [|done].
      apply not_true_is_false.
      intros (k & Hk & [Hn Hm]%andb_true_iff)%exists_below_true.
      apply bool_decide_eq_true in Hn, Hm.
      rewrite Hg in Hn by lia. rewrite Hmx in Hm by lia.
      rewrite !decide_True in Hn, Hm by lia. lia.
Qed.

Lemma d_vine_needed_hfunc_witness :
  NoDup [2; 4; 1; 3] ∧ 1 ≤ size [2; 4; 1; 3]
  ∧ ∃ M (H1 H2 : Mat bool),
      construct_d_vine_matrix [2; 4; 1; 3] = Some M
      ∧ get_needed_hfunc1 (RVineMatrix_new M) = Some H1
      ∧ get_needed_hfunc2 (RVineMatrix_new M) = Some H2
      ∧ coeff H1 1 1 = Some true ∧ coeff H2 1 1 = Some true
      ∧ coeff H1 0 1 = Some false ∧ coeff H2 2 1 = Some false.
Proof.
  assert (NoDup [2; 4; 1; 3]) as Hnd.
  { repeat (apply NoDup_cons_2;
            [rewrite ?elem_of_cons, elem_of_nil; lia|]).
    apply NoDup_nil_2. }
  split; [exact Hnd|]. split; [done|].
  destruct (d_vine_needed_hfunc [2; 4; 1; 3] Hnd ltac:(done))
    as (M & H1 & H2 & HM & HH1 & HH2 & Hc).
  exists M, H1, H2. split; [exact HM|]. split; [exact HH1|].
  split; [exact HH2|].
  split_and!; [apply (Hc 1 1)|apply (Hc 1 1)|apply (Hc 0 1)|apply (Hc 2 1)];
    done.
Defined.

(** * Further properties: matrices that are not square *)

Lemma for_loop_fault {S} (P : Z → S → Prop) (body : Z → S → option S) n :
  ∀ lo s k,
    lo ≤ k < lo + Z.of_nat n →
    P lo s →
    (∀ i s, lo ≤ i < k → P i s → ∃ s', body i s = Some s' ∧ P (i + 1) s') →
    (∀ s, P k s → body k s = None) →
    for_loop n lo body s = None.
Proof.
  induction n as [|n IH]; intros lo s k Hk H0 Hstep Hfault; [lia|]. simpl.
  destruct (decide (lo = k)) as [->|Hne].
  - by rewrite Hfault.
  - destruct (Hstep lo s) as (s' & -> & Hs'); [lia|done|]. simpl.
    apply (IH (lo + 1) s' k); [lia|done| |done].
    intros i s0 Hi. apply Hstep. lia.
Qed.

Lemma for_range_fault {S} (P : Z → S → Prop) (body : Z → S → option S)
    lo hi s k :
  lo ≤ k < hi →
  P lo s →
  (∀ i s, lo ≤ i < k → P i s → ∃ s', body i s = Some s' ∧ P (i + 1) s') →
  (∀ s, P k s → body k s = None) →
  for_range lo hi body s = None.
Proof.
  intros Hk H0 Hstep Hfault. unfold for_range.
  apply (for_loop_fault P body _ lo s k); [lia|done..].
Qed.

(** The constructor accepts any matrix.  On a matrix with fewer columns
    than rows every derivation faults: the scan of row 0 runs over
    [rows] columns and leaves the matrix at column [cols]. *)
Theorem derivations_narrow_matrix (M : Mat Z) :
  wf M →
  cols M < rows M →
  in_natural_order (RVineMatrix_new M) = None
  ∧ get_max_matrix (RVineMatrix_new M) = None
  ∧ get_needed_hfunc1 (RVineMatrix_new M) = None
  ∧ get_needed_hfunc2 (RVineMatrix_new M) = None.
Proof.
  intros Hwf Hnarrow. pose proof Hwf as (Hr & Hc & _).
  assert (in_natural_order (RVineMatrix_new M) = None) as HN.
  { unfold in_natural_order, relabel_elements. simpl.
    destruct (diagonal (colwise_reverse M)) as [old|] eqn:Hold; [|done].
    simpl.
    assert (size old ≤ rows M) as Hsize.
    { unfold diagonal in Hold. apply length_mapM in Hold.
      rewrite length_seqZ in Hold. simpl in Hold. unfold size. lia. }
    apply (for_range_fault
             (λ _ nm, rows nm = rows M ∧ cols nm = rows M)
             _ 0 (rows M) _ 0); [lia|done|lia|].
    intros nm Hshape.
    apply (for_range_fault
             (λ _ nm, rows nm = rows M ∧ cols nm = rows M)
             _ 0 (rows M - 0) _ (cols M)); [lia|done| |].
    - intros j nm' Hj [Hrows Hcols].
      destruct (wf_coeff_is_Some M 0 j Hwf) as [x ->]; [lia..|]. simpl.
      rewrite relabel_one_scan.
      2: { fold (natural_labels (rows M)).
           rewrite natural_labels_size by done. done. }
      simpl. unfold set_coeff. rewrite decide_True by lia.
      eexists. split; [done|]. done.
    - intros nm' _. unfold coeff at 1. by rewrite decide_False by lia. }
  split_and!; try done.
  - unfold get_max_matrix. by rewrite HN.
  - unfold get_needed_hfunc1. by rewrite HN.
  - unfold get_needed_hfunc2.
    destruct (assign_block _ _ _ _ _ _) as [H0|]; [|done]. simpl.
    by rewrite HN.
Qed.

Lemma derivations_narrow_matrix_witness :
  wf (of_rows [[1]; [2]]) ∧ cols (of_rows [[1]; [2]]) < rows (of_rows [[1]; [2]])
  ∧ in_natural_order (RVineMatrix_new (of_rows [[1]; [2]])) = None
  ∧ get_max_matrix (RVineMatrix_new (of_rows [[1]; [2]])) = None
  ∧ get_needed_hfunc1 (RVineMatrix_new (of_rows [[1]; [2]])) = None
  ∧ get_needed_hfunc2 (RVineMatrix_new (of_rows [[1]; [2]])) = None.
Proof.
  assert (wf (of_rows [[1]; [2]])) as Hwf.
  { split_and!; [done|done|reflexivity|repeat constructor]. }
  split; [exact Hwf|]. split; [done|].
  apply (derivations_narrow_matrix (of_rows [[1]; [2]]) Hwf). done.
Defined.
